(** * Escape_dungeon: a shallow embedding of the dungeon escape game

    The Python program [Escape_dungeon.py] is a turn-based text adventure.
    Its state is a [Player] object and a [world] dictionary of room
    dictionaries, both mutated in place by the command handlers; it talks
    to the user through [input] and [print].

    The embedding keeps that shape:
    - the world is a finite map from room names to [Room] records;
    - a room dictionary obtained by [world[k]] is a shared object, so a
      handler that holds [current_room] holds the key [k] and every write
      through it goes to the map;
    - the console is a list of pending input lines and a list of printed
      strings (one entry per [print] call, prompts of [input] included);
    - Python exceptions are the [Raise] outcome of a state-and-error monad;
      the state reached before the exception is kept, as in Python.

    Three builtins are modelled on ASCII text only: [int] (as [py_int]),
    [str.lower] (as [lower]) and [repr] of a string (as [py_repr]).  [int]
    is the one of CPython 3.11 and later, run with the interpreter's default
    limit of 4300 digits for the conversion of a string.
    [KeyboardInterrupt] is an asynchronous signal and has no counterpart
    here. *)

From Stdlib Require Import ZArith String Ascii List Lia.
From stdpp Require Import base gmap strings list pretty.

Local Open Scope Z_scope.
Local Open Scope string_scope.
Local Open Scope list_scope.

(** ** Python builtins used by the program *)

Module Py.

Definition nl : string := String "010"%char EmptyString.

(** [s * n] on strings. *)
Fixpoint str_mul (s : string) (n : nat) : string :=
  match n with
  | O => EmptyString
  | S n' => s +:+ str_mul s n'
  end.

(** Truth value of a [str]: the empty string is false. *)
Definition truthy (s : string) : bool := negb (String.eqb s EmptyString).

Definition lower_ascii (c : ascii) : ascii :=
  let n := nat_of_ascii c in
  if (Nat.leb 65 n && Nat.leb n 90)%bool then ascii_of_nat (n + 32) else c.

(** [str.lower], on ASCII letters. *)
Fixpoint lower (s : string) : string :=
  match s with
  | EmptyString => EmptyString
  | String c s' => String (lower_ascii c) (lower s')
  end.

(** The blanks that [int] skips at both ends of an ASCII string: tab, line
    feed, vertical tab, form feed, carriage return and space. *)
Definition is_space (c : ascii) : bool :=
  let n := nat_of_ascii c in
  ((Nat.leb 9 n && Nat.leb n 13) || Nat.eqb n 32)%bool.

Fixpoint lstrip (s : string) : string :=
  match s with
  | String c s' => if is_space c then lstrip s' else s
  | EmptyString => EmptyString
  end.

Definition strip (s : string) : string :=
  String.rev (lstrip (String.rev (lstrip s))).

Definition digit_of (c : ascii) : option Z :=
  let n := nat_of_ascii c in
  if (Nat.leb 48 n && Nat.leb n 57)%bool then Some (Z.of_nat (n - 48)) else None.

(** Decimal digits, single underscores allowed between two digits. *)
Fixpoint digits (s : string) (acc : Z) (after_digit : bool) : option Z :=
  match s with
  | EmptyString => if after_digit then Some acc else None
  | String c s' =>
      match digit_of c with
      | Some d => digits s' (10 * acc + d) true
      | None =>
          if (Ascii.eqb c "_" && after_digit)%bool
          then digits s' acc false
          else None
      end
  end.

(** The number of digit characters; underscores do not count. *)
Fixpoint digit_count (s : string) : Z :=
  match s with
  | EmptyString => 0
  | String c s' =>
      match digit_of c with
      | Some _ => 1 + digit_count s'
      | None => digit_count s'
      end
  end.

(** [sys.get_int_max_str_digits()], by default. *)
Definition int_max_str_digits : Z := 4300.

(** The digits after the sign: a numeral with more digits than the limit is
    refused, leading zeros included. *)
Definition limited (r : string) : option Z :=
  if Z.leb (digit_count r) int_max_str_digits then digits r 0 false else None.

(** [int(s)] for a string [s]: [None] stands for [ValueError]. *)
Definition py_int (s : string) : option Z :=
  match strip s with
  | String "-" r => Z.opp <$> limited r
  | String "+" r => limited r
  | t => limited t
  end.

Definition hex_digit (n : nat) : ascii :=
  ascii_of_nat (if Nat.ltb n 10 then 48 + n else 87 + n).

(** One character of [repr(s)], between quotes [quote]. *)
Definition repr_char (quote c : ascii) : string :=
  let n := nat_of_ascii c in
  let escaped (x : ascii) := String "092"%char (String x EmptyString) in
  if (Ascii.eqb c quote || Ascii.eqb c "092"%char)%bool then escaped c
  else if Nat.eqb n 9 then escaped "t"%char
  else if Nat.eqb n 10 then escaped "n"%char
  else if Nat.eqb n 13 then escaped "r"%char
  else if (Nat.ltb n 32 || Nat.eqb n 127)%bool
  then String "092"%char
         (String "x"%char
            (String (hex_digit (n / 16)) (String (hex_digit (n mod 16)) EmptyString)))
  else String c EmptyString.

(** [repr(s)]: single quotes, unless [s] has a single quote and no double
    quote; the quote in use, the backslash and the control characters are
    escaped. *)
Definition py_repr (s : string) : string :=
  let chars := list_ascii_of_string s in
  let has (c : ascii) := existsb (Ascii.eqb c) chars in
  let quote : ascii :=
    if (has "'"%char && negb (has "034"%char))%bool then "034"%char else "'"%char in
  String quote
    (fold_right (λ c acc, repr_char quote c +:+ acc) (String quote EmptyString) chars).

(** [l[i]] on a list: negative indices count from the end, [None]
    stands for [IndexError]. *)
Definition py_index {A : Type} (l : list A) (i : Z) : option A :=
  let n := Z.of_nat (length l) in
  if (Z.leb 0 i && Z.ltb i n)%bool then l !! Z.to_nat i
  else if (Z.leb (- n) i && Z.ltb i 0)%bool then l !! Z.to_nat (n + i)
  else None.

(** [l.remove(x)] when [x] occurs in [l]: the first occurrence goes. *)
Fixpoint list_remove (x : string) (l : list string) : list string :=
  match l with
  | [] => []
  | y :: l' => if String.eqb x y then l' else y :: list_remove x l'
  end.

(** [x in l]. *)
Definition contains (x : string) (l : list string) : bool :=
  bool_decide (x ∈ l).

(** [d[k]] on a dictionary kept in insertion order. *)
Fixpoint dict_get (d : list (string * string)) (k : string) : option string :=
  match d with
  | [] => None
  | (k', v) :: d' => if String.eqb k k' then Some v else dict_get d' k
  end.

Definition keys (d : list (string * string)) : list string := d.*1.

End Py.
Import Py.

(** ** Data model *)

Inductive GameCommands : Type :=
  LOOK | TAKE | MOVE | USE | INVENTORY | QUIT | HELP.

Inductive ObstacleType : Type :=
  LOCKED | GUARD | PIT | CHEST | GATE.

(** The [value] of an [ObstacleType] member; the room dictionaries of
    [create_world] store these strings. *)
Definition ObstacleType_value (t : ObstacleType) : string :=
  match t with
  | LOCKED => "locked"
  | GUARD => "guard"
  | PIT => "pit"
  | CHEST => "chest"
  | GATE => "gate"
  end.

Record Obstacle : Type := mkObstacle {
  type : string;
  required_item : string;
  message : string;
  direction : option string
}.

Record Room : Type := mkRoom {
  description : string;
  exits : list (string * string);
  items : list string;
  obstacle : option Obstacle
}.

Record Player : Type := mkPlayer {
  name : string;
  inventory : list string;
  location : string;
  max_inventory : Z
}.

(** [Player.__init__]. *)
Definition new_Player (name : string) (max_inventory : Z) : Player :=
  mkPlayer name [] "Dungeon Cell" max_inventory.

Definition default_max_inventory : Z := 4.

Definition set_inventory (inv : list string) (p : Player) : Player :=
  mkPlayer (name p) inv (location p) (max_inventory p).

Definition set_location (loc : string) (p : Player) : Player :=
  mkPlayer (name p) (inventory p) loc (max_inventory p).

Definition set_items (its : list string) (r : Room) : Room :=
  mkRoom (description r) (exits r) its (obstacle r).

Definition set_obstacle (o : option Obstacle) (r : Room) : Room :=
  mkRoom (description r) (exits r) (items r) o.

Definition create_world : gmap string Room :=
  list_to_map [
    ("Dungeon Cell",
     mkRoom "You're in a dark stone cell. A rusty bed sits in the corner."
       [("forward", "Corridor")]
       ["Crowbar"]
       (Some (mkObstacle "locked" "Cell Key" "The cell door is locked!" (Some "forward"))));
    ("Corridor",
     mkRoom "A dimly lit corridor stretches before you."
       [("forward", "Guard Room"); ("right", "Storage Room")]
       []
       None);
    ("Guard Room",
     mkRoom "A guard snores loudly in a chair. There's a door behind him."
       [("back", "Corridor"); ("forward", "Kitchen")]
       []
       (Some (mkObstacle "guard" "Torch" "The guard blocks your path!" (Some "forward"))));
    ("Storage Room",
     mkRoom "Dusty shelves line the walls. Something glints in the corner."
       [("back", "Corridor"); ("left", "Library")]
       ["Rope"]
       (Some (mkObstacle "locked" "Iron Key" "The door to the library is locked!" (Some "left"))));
    ("Kitchen",
     mkRoom "A filthy kitchen with moldy food. A torch burns on the wall."
       [("back", "Guard Room"); ("right", "Armory")]
       ["Torch"; "Food"]
       None);
    ("Armory",
     mkRoom "Weapons rust on racks. A strongbox sits in the center."
       [("back", "Kitchen"); ("north", "Treasury")]
       []
       (Some (mkObstacle "chest" "Crowbar" "The strongbox is jammed shut!" None)));
    ("Library",
     mkRoom "Ancient books line crumbling shelves. A map peeks from a desk."
       [("right", "Storage Room"); ("forward", "Study")]
       ["Map"; "Book"]
       None);
    ("Study",
     mkRoom "A scholar's study with a desk and chair. A note reveals a secret."
       [("back", "Library"); ("down", "Secret Passage")]
       ["Note"]
       None);
    ("Secret Passage",
     mkRoom "A narrow hidden passage with strange markings on the wall."
       [("up", "Study"); ("forward", "Torture Chamber")]
       ["Gem"]
       None);
    ("Torture Chamber",
     mkRoom "A gruesome room with a gaping pit in the floor."
       [("back", "Secret Passage"); ("across", "Courtyard")]
       []
       (Some (mkObstacle "pit" "Rope" "The pit is too wide to jump!" (Some "across"))));
    ("Treasury",
     mkRoom "Glittering treasures line the walls. A suspicious guard stands watch."
       [("south", "Armory")]
       ["Gold Coin"]
       (Some (mkObstacle "guard" "Gem" "A guard blocks access to the treasure!" None)));
    ("Courtyard",
     mkRoom "Moonlight reveals a massive gate. It's locked."
       [("forward", "Exit Gate")]
       []
       (Some (mkObstacle "gate" "Cell Key" "The gate is securely locked!" (Some "forward"))));
    ("Exit Gate",
     mkRoom "Freedom awaits beyond this point!"
       []
       []
       None)
  ].

(** ** The game state and the monad of the handlers *)

Inductive exn : Type :=
  | InventoryFullError (msg : string)
  | InvalidCommandError (msg : string)
  | KeyError (key : string)
  | IndexError
  | EOFError.

(** [isinstance(e, GameError)]. *)
Definition is_GameError (e : exn) : bool :=
  match e with
  | InventoryFullError _ | InvalidCommandError _ => true
  | KeyError _ | IndexError | EOFError => false
  end.

(** [str(e)]; a [KeyError] shows the [repr] of the key. *)
Definition str_exn (e : exn) : string :=
  match e with
  | InventoryFullError msg | InvalidCommandError msg => msg
  | KeyError key => py_repr key
  | IndexError => "list index out of range"
  | EOFError => "EOF when reading a line"
  end.

Record Game : Type := mkGame {
  player : Player;
  world : gmap string Room;
  stdin : list string;
  stdout : list string
}.

Inductive outcome (A : Type) : Type :=
  | Return (a : A)
  | Raise (e : exn).
Arguments Return {A} a.
Arguments Raise {A} e.

Definition M (A : Type) : Type := Game → outcome A * Game.

#[global] Instance M_ret : MRet M := λ A a g, (Return a, g).

#[global] Instance M_bind : MBind M := λ A B f m g,
  match m g with
  | (Return a, g') => f a g'
  | (Raise e, g') => (Raise e, g')
  end.

Definition raise {A : Type} (e : exn) : M A := λ g, (Raise e, g).

Definition get_player : M Player := λ g, (Return (player g), g).

Definition get_world : M (gmap string Room) := λ g, (Return (world g), g).

Definition put_player (p : Player) : M unit := λ g,
  (Return tt, mkGame p (world g) (stdin g) (stdout g)).

Definition put_world (w : gmap string Room) : M unit := λ g,
  (Return tt, mkGame (player g) w (stdin g) (stdout g)).

(** [print(s)]. *)
Definition print (s : string) : M unit := λ g,
  (Return tt, mkGame (player g) (world g) (stdin g) (stdout g ++ [s])).

(** [input(prompt)]: the prompt is written, then a line is read. *)
Definition input (prompt : string) : M string := λ g,
  match stdin g with
  | [] => (Raise EOFError, mkGame (player g) (world g) [] (stdout g ++ [prompt]))
  | line :: rest =>
      (Return line, mkGame (player g) (world g) rest (stdout g ++ [prompt]))
  end.

(** [world[k]]. *)
Definition get_room (k : string) : M Room :=
  w ← get_world;
  match w !! k with
  | Some r => mret r
  | None => raise (KeyError k)
  end.

(** A write to a field of the room object [world[k]]. *)
Definition update_room (k : string) (f : Room → Room) : M unit :=
  _ ← get_room k;
  w ← get_world;
  put_world (alter f k w).

Definition update_player (f : Player → Player) : M unit :=
  p ← get_player;
  put_player (f p).

(** [for i, item in enumerate(xs, i): print(f"{i}. {item}")]. *)
Fixpoint print_numbered (i : nat) (xs : list string) : M unit :=
  match xs with
  | [] => mret tt
  | x :: xs' =>
      print (pretty i +:+ ". " +:+ x);;
      print_numbered (S i) xs'
  end.

(** [for item in xs: print(f"- {item}")]. *)
Fixpoint print_bullets (xs : list string) : M unit :=
  match xs with
  | [] => mret tt
  | x :: xs' =>
      print ("- " +:+ x);;
      print_bullets xs'
  end.

(** [try: body except GameError as e: handler(e)]. *)
Definition try_GameError {A : Type} (body : M A) (handler : exn → M A) : M A :=
  λ g,
  match body g with
  | (Return a, g') => (Return a, g')
  | (Raise e, g') => if is_GameError e then handler e g' else (Raise e, g')
  end.

(** ** Player methods *)

Definition add_item (item : string) : M bool :=
  p ← get_player;
  if Z.ltb (Z.of_nat (length (inventory p))) (max_inventory p)
  then
    update_player (λ p, set_inventory (inventory p ++ [item]) p);;
    mret true
  else
    raise (InventoryFullError
             ("Inventory full! (Max " +:+ pretty (max_inventory p) +:+ " items)")).

Definition has_item (item : string) : M bool :=
  p ← get_player;
  mret (contains item (inventory p)).

Definition remove_item (item : string) : M bool :=
  p ← get_player;
  if contains item (inventory p)
  then
    update_player (λ p, set_inventory (list_remove item (inventory p)) p);;
    mret true
  else mret false.

Definition show_inventory : M unit :=
  p ← get_player;
  match inventory p with
  | [] => print (nl +:+ "Your bag is empty.")
  | _ :: _ =>
      print (nl +:+ "Inventory (" +:+ pretty (length (inventory p)) +:+ "/"
             +:+ pretty (max_inventory p) +:+ "):");;
      print_bullets (inventory p)
  end.

(** ** Command handlers *)

Definition print_header (text : string) : M unit :=
  print (nl +:+ str_mul "-" 40);;
  print (" " +:+ text);;
  print (str_mul "-" 40).

Definition handle_locked_chest (item : string) : M bool :=
  p ← get_player;
  if (String.eqb (location p) "Armory" && String.eqb item "Crowbar")%bool
  then
    armory ← get_room "Armory";
    match obstacle armory with
    | Some ob =>
        if String.eqb (type ob) "chest"
        then
          print (nl +:+ "You pry open the strongbox with the crowbar!");;
          update_room "Armory" (λ r, set_items (items r ++ ["Cell Key"]) r);;
          update_room "Armory" (λ r, set_items (items r ++ ["Iron Key"]) r);;
          update_room "Armory" (set_obstacle None);;
          remove_item "Crowbar";;
          print "You found a Cell Key and an Iron Key inside!";;
          mret true
        else mret false
    | None => mret false
    end
  else mret false.

Definition handle_special_interactions : M unit :=
  p ← get_player;
  (if String.eqb (location p) "Library"
   then
     library ← get_room "Library";
     if contains "Book" (items library)
     then print (nl +:+ "One of the books looks interesting. The title reads 'Secret Passages'.")
     else mret tt
   else mret tt);;
  (if String.eqb (location p) "Study"
   then
     study ← get_room "Study";
     if contains "Note" (items study)
     then print (nl +:+ "A note on the desk reads: 'Pull the third candle to reveal the passage down.'")
     else mret tt
   else mret tt);;
  if String.eqb (location p) "Treasury"
  then
    carried ← has_item "Gem";
    if (carried : bool)
    then
      print (nl +:+ "The guard is mesmerized by your glittering gem!");;
      print "'Such beauty!' he exclaims, stepping aside to let you access the treasure.";;
      update_room "Treasury" (set_obstacle None)
    else mret tt
  else mret tt.

Definition handle_look : M unit :=
  p ← get_player;
  current_room ← get_room (location p);
  print (nl +:+ description current_room);;
  match items current_room with
  | _ :: _ =>
      print (nl +:+ "You see:");;
      print_bullets (items current_room)
  | [] => print (nl +:+ "There are no items of interest here.")
  end;;
  match obstacle current_room with
  | Some ob => print (nl +:+ "! " +:+ message ob)
  | None => mret tt
  end;;
  handle_special_interactions.

Definition handle_take : M unit :=
  p ← get_player;
  current_room ← get_room (location p);
  match items current_room with
  | [] => print (nl +:+ "There's nothing to take here.")
  | _ :: _ =>
      print (nl +:+ "What would you like to take?");;
      print_numbered 1 (items current_room);;
      line ← input (nl +:+ "Enter number (0 to cancel): ");
      match py_int line with
      | None => print (nl +:+ "Invalid choice.")
      | Some choice =>
          if Z.eqb choice 0 then mret tt
          else
            match py_index (items current_room) (choice - 1) with
            | None => print (nl +:+ "Invalid choice.")
            | Some item =>
                added ← add_item item;
                if (added : bool)
                then
                  update_room (location p) (λ r, set_items (list_remove item (items r)) r);;
                  print (nl +:+ "You picked up the " +:+ item +:+ ".");;
                  if String.eqb item "Book"
                  then print "You opened the book. It contains information about a secret passage in the study."
                  else if String.eqb item "Note"
                  then print "The note reveals that pulling the third candle in the study reveals a passage."
                  else mret tt
                else mret tt
            end
      end
  end.

(** Truth value of the optional argument [required_item] of
    [handle_use_item]: [None] and the empty string are false. *)
Definition hinted (required_item : option string) : bool :=
  match required_item with
  | Some r => truthy r
  | None => false
  end.

(** The first part of [handle_use_item], up to the point where
    [item_to_use] is bound; [None] stands for each early [return]. *)
Definition choose_item (required_item : option string) : M (option string) :=
  p ← get_player;
  match inventory p with
  | [] =>
      print (nl +:+ "You don't have any items to use.");;
      mret None
  | _ :: _ =>
      let required := default EmptyString required_item in
      (* [has_item] only reads the inventory; Python calls it when the
         hint is true, and its result is used in that case only. *)
      owned ← has_item required;
      if (hinted required_item && negb owned)%bool
      then
        print (nl +:+ "You need a " +:+ required +:+ " for this, but you don't have one.");;
        mret None
      else if (hinted required_item && owned)%bool
      then mret (Some required)
      else
        print (nl +:+ "Which item would you like to use?");;
        print_numbered 1 (inventory p);;
        line ← input (nl +:+ "Enter number (0 to cancel): ");
        match py_int line with
        | None =>
            print (nl +:+ "Invalid choice.");;
            mret None
        | Some choice =>
            if Z.eqb choice 0 then mret None
            else
              match py_index (inventory p) (choice - 1) with
              | None =>
                  print (nl +:+ "Invalid choice.");;
                  mret None
              | Some item => mret (Some item)
              end
        end
  end.

(** The rest of [handle_use_item], from the strongbox special case on. *)
Definition apply_item (item_to_use : string) : M unit :=
  opened ← handle_locked_chest item_to_use;
  if (opened : bool) then mret tt
  else
    p ← get_player;
    current_room ← get_room (location p);
    match obstacle current_room with
    | Some ob =>
        if String.eqb item_to_use (required_item ob)
        then
          print (nl +:+ "You used the " +:+ item_to_use +:+ " successfully!");;
          (if String.eqb (type ob) "locked"
           then print ("You unlocked the door with the " +:+ item_to_use +:+ ".")
           else if String.eqb (type ob) "guard"
           then print ("You distracted the guard with the " +:+ item_to_use +:+ ".")
           else if String.eqb (type ob) "pit"
           then print ("You used the " +:+ item_to_use +:+ " to cross the pit safely.")
           else if String.eqb (type ob) "gate"
           then print ("You unlocked the gate with the " +:+ item_to_use +:+ ".")
           else mret tt);;
          update_room (location p) (set_obstacle None);;
          if contains item_to_use ["Cell Key"; "Iron Key"]
          then
            remove_item item_to_use;;
            mret tt
          else mret tt
        else print (nl +:+ "You used the " +:+ item_to_use +:+ ", but nothing happened.")
    | None => print (nl +:+ "You used the " +:+ item_to_use +:+ ", but nothing happened.")
    end.

Definition handle_use_item (required_item : option string) : M unit :=
  chosen ← choose_item required_item;
  match chosen with
  | None => mret tt
  | Some item_to_use => apply_item item_to_use
  end.

(** The test of [handle_movement_execution]:
    [obstacle["direction"] == direction or obstacle["direction"] is None]. *)
Definition obstructs (ob : Obstacle) (attempted : string) : bool :=
  match direction ob with
  | Some d => String.eqb d attempted
  | None => true
  end.

(** [current_room] is the key of the room object the caller holds. *)
Definition handle_movement_execution (current_room direction : string) : M unit :=
  room ← get_room current_room;
  let move : M unit :=
    match dict_get (exits room) direction with
    | None => raise (KeyError direction)
    | Some new_location =>
        print (nl +:+ "You move " +:+ direction +:+ " to the " +:+ new_location +:+ "...");;
        update_player (set_location new_location)
    end in
  match obstacle room with
  | Some ob =>
      if obstructs ob direction
      then
        print (nl +:+ "! " +:+ message ob);;
        answer ← input "Would you like to try using an item? (y/n) ";
        if String.eqb (lower answer) "y"
        then handle_use_item (Some (required_item ob))
        else mret tt
      else move
  | None => move
  end.

Definition handle_move : M unit :=
  p ← get_player;
  current_room ← get_room (location p);
  let available_exits := keys (exits current_room) in
  match available_exits with
  | [] => print (nl +:+ "There are no exits from here.")
  | _ :: _ =>
      print (nl +:+ "Available directions:");;
      print_numbered 1 available_exits;;
      line ← input (nl +:+ "Enter number (0 to cancel): ");
      match py_int line with
      | None => raise (InvalidCommandError "Please enter a valid number")
      | Some choice =>
          if Z.eqb choice 0 then mret tt
          else if negb (Z.leb 0 (choice - 1)
                        && Z.ltb (choice - 1) (Z.of_nat (length available_exits)))
          then raise (InvalidCommandError "Invalid direction choice")
          else
            match py_index available_exits (choice - 1) with
            | None => raise IndexError
            | Some direction => handle_movement_execution (location p) direction
            end
      end
  end.

(** ** The game loop *)

(** The [if]/[elif] chain of [main]; [true] means that [quit] was typed. *)
Definition dispatch (command : string) : M bool :=
  if String.eqb command "look" then handle_look;; mret false
  else if String.eqb command "take" then handle_take;; mret false
  else if String.eqb command "move" then handle_move;; mret false
  else if String.eqb command "use" then handle_use_item None;; mret false
  else if contains command ["inventory"; "i"] then show_inventory;; mret false
  else if contains command ["quit"; "q"] then
    print (nl +:+ "Thanks for playing!");;
    mret true
  else if contains command ["help"; "h"] then
    print (nl +:+ "Commands: look, take, move, use, inventory, quit");;
    mret false
  else raise (InvalidCommandError "Invalid command. Type 'help' for commands.").

(** One pass through the body of [while True]; [true] means [break]. *)
Definition turn : M bool :=
  p ← get_player;
  print (nl +:+ "[Current Location: " +:+ location p +:+ "]");;
  try_GameError
    (line ← input (nl +:+ "What will you do? ");
     quit ← dispatch (lower line);
     if (quit : bool) then mret true
     else
       p' ← get_player;
       if String.eqb (location p') "Exit Gate"
       then
         print_header "VICTORY";;
         print ("Congratulations " +:+ name p' +:+ "! You've escaped!");;
         mret true
       else mret false)
    (λ e, print (nl +:+ "Error: " +:+ str_exn e);; mret false).

(** [while True], cut after [fuel] passes; [false] means that the bound
    was reached before the loop was left. *)
Fixpoint main_loop (fuel : nat) : M bool :=
  match fuel with
  | O => mret false
  | S fuel' =>
      stop ← turn;
      if (stop : bool) then mret true else main_loop fuel'
  end.

(** What [main] prints before it asks for the name. *)
Definition banner : list string :=
  [ nl +:+ str_mul "-" 40; " DUNGEON ESCAPE ADVENTURE"; str_mul "-" 40;
    "You wake up in a mysterious dungeon cell...";
    "Find a way to escape through the exit gate!";
    nl +:+ "Commands: look, take, move, use, inventory, quit";
    nl +:+ "Enter your character's name: " ].

(** The state in which [main] enters its loop. *)
Definition initial_game (player_name : string) (lines : list string) : Game :=
  mkGame (new_Player player_name default_max_inventory) create_world lines banner.

Inductive run : Type :=
  | NoGame (out : list string)
  | Stopped (g : Game)
  | OutOfFuel (g : Game).

(** [main], on the lines typed by the user.  [NoGame]: the input ended at
    the name prompt, before a player existed. *)
Definition main (fuel : nat) (lines : list string) : run :=
  match lines with
  | [] => NoGame (banner ++ [nl +:+ "An unexpected error occurred: " +:+ str_exn EOFError])
  | player_name :: rest =>
      match main_loop fuel (initial_game player_name rest) with
      | (Return true, g) => Stopped g
      | (Return false, g) => OutOfFuel g
      | (Raise e, g) =>
          Stopped (print (nl +:+ "An unexpected error occurred: " +:+ str_exn e) g).2
      end
  end.


(** * Specification vocabulary *)

(** ** Relations between the state before and the state after *)

(** [m] keeps the relation [R] between the state it starts from and the
    state it ends in, whatever its outcome. *)
Definition preserves (R : relation Game) {A : Type} (m : M A) : Prop :=
  ∀ g, R g (m g).2.

(** A room object keeps its description and exits; its obstacle stays as
    it is or is cleared.  The item list is free. *)
Definition room_kept (r r' : Room) : Prop :=
  description r' = description r ∧
  exits r' = exits r ∧
  (obstacle r' = obstacle r ∨ obstacle r' = None).

(** The world keeps its set of room identifiers, and every room is kept. *)
Definition world_kept (w w' : gmap string Room) : Prop :=
  dom w' = dom w ∧
  ∀ k r, w !! k = Some r → ∃ r', w' !! k = Some r' ∧ room_kept r r'.

(** What every handler respects: the player's name and capacity, the order
    of the console, and the structure of the world. *)
Record evolves (g g' : Game) : Prop := mkEvolves {
  ev_name : name (player g') = name (player g);
  ev_max : max_inventory (player g') = max_inventory (player g);
  ev_stdout : stdout g `prefix_of` stdout g';
  ev_stdin : stdin g' `suffix_of` stdin g;
  ev_world : world_kept (world g) (world g')
}.

(** The handlers other than a move also keep the player where they are. *)
Definition stays (g g' : Game) : Prop :=
  location (player g') = location (player g).

(** Only the console moved: the player and the world are the same. *)
Definition same_play (g g' : Game) : Prop :=
  player g' = player g ∧ world g' = world g.

(** The same game with other lines printed, or other lines waiting. *)
Definition with_stdout (out : list string) (g : Game) : Game :=
  mkGame (player g) (world g) (stdin g) out.

Definition with_stdin (lines : list string) (g : Game) : Game :=
  mkGame (player g) (world g) lines (stdout g).

(** ** Lists of items *)

(** [l'] is [l] without its first occurrence of [x]: what the claims call
    removing [x] from a list that has it. *)
Definition removed_first (x : string) (l l' : list string) : Prop :=
  ∃ before after, l = before ++ x :: after ∧ (x ∉ before) ∧ l' = before ++ after.

(** The number of occurrences of [x] in [l]. *)
Definition copies (x : string) (l : list string) : nat :=
  length (filter (λ y, y = x) l).

(** [l] names [x] once. *)
Definition named_once (x : string) (l : list string) : Prop := copies x l = 1%nat.

(** ** Using an item *)

(** [handle_use_item required_item] run on [g] gets as far as binding
    [item_to_use], and binds it to [item]: the player confirmed the hinted
    item, or picked [item] from the numbered inventory. *)
Definition uses (required_item : option string) (g : Game) (item : string) : Prop :=
  (choose_item required_item g).1 = Return (Some item).

(** The strongbox special case of [handle_locked_chest] applies. *)
Definition chest_applies (g : Game) (item : string) : Prop :=
  location (player g) = "Armory" ∧ item = "Crowbar" ∧
  ∃ armory ob,
    world g !! "Armory" = Some armory ∧ obstacle armory = Some ob ∧ type ob = "chest".

(** The Armory once the strongbox is open. *)
Definition opened (armory : Room) : Room :=
  mkRoom (description armory) (exits armory)
         (items armory ++ ["Cell Key"; "Iron Key"]) None.

(** The room the player is in has no obstacle. *)
Definition obstacle_cleared (g : Game) : Prop :=
  ∃ r, world g !! location (player g) = Some r ∧ obstacle r = None.

(** The generic rule of obstacle resolution, for a use of [item] in a room
    that has an obstacle: it is cleared exactly when [item] is the required
    one, and then a key is removed from the inventory (one copy, the others
    keeping their places) and any other item leaves the inventory as it
    was. *)
Definition use_resolves (hint : option string) (g : Game) (item : string) : Prop :=
  ∀ r ob,
    world g !! location (player g) = Some r →
    obstacle r = Some ob →
    let g' := (handle_use_item hint g).2 in
    (obstacle_cleared g' ↔ item = required_item ob) ∧
    (item = required_item ob →
     (item ∈ ["Cell Key"; "Iron Key"] →
      removed_first item (inventory (player g)) (inventory (player g'))) ∧
     (item ∉ ["Cell Key"; "Iron Key"] →
      inventory (player g') = inventory (player g))).

(** ** Taking an item *)

(** The player answers the menu of [handle_take] in the room [r] with a
    number other than 0, and the index selects [item] in the room's list. *)
Definition takes (g : Game) (r : Room) (item : string) : Prop :=
  world g !! location (player g) = Some r ∧
  ∃ line rest choice,
    stdin g = line :: rest ∧ py_int line = Some choice ∧ choice ≠ 0 ∧
    py_index (items r) (choice - 1) = Some item.

(** The inventory is below its capacity. *)
Definition has_room (g : Game) : Prop :=
  (Z.of_nat (length (inventory (player g))) < max_inventory (player g))%Z.


(** ** Moving *)

(** A move in direction [attempted] out of the room [r] is blocked: the room
    has an obstacle, and the obstacle's direction is [attempted] or absent. *)
Definition blocked (r : Room) (attempted : string) : Prop :=
  ∃ ob, obstacle r = Some ob ∧ (direction ob = Some attempted ∨ direction ob = None).


(** The player answers the menu of [handle_move] in the room [r] with
    [line], a number that selects the exit [attempted]. *)
Definition picks (g : Game) (r : Room) (line attempted : string) : Prop :=
  world g !! location (player g) = Some r ∧
  ∃ rest choice,
    stdin g = line :: rest ∧ py_int line = Some choice ∧ choice ≠ 0 ∧
    (0 ≤ choice - 1 < Z.of_nat (length (keys (exits r))))%Z ∧
    keys (exits r) !! Z.to_nat (choice - 1) = Some attempted.

(** ** Rooms and states of [create_world] *)

Definition cell_room : Room :=
  mkRoom "You're in a dark stone cell. A rusty bed sits in the corner."
    [("forward", "Corridor")]
    ["Crowbar"]
    (Some (mkObstacle "locked" "Cell Key" "The cell door is locked!" (Some "forward"))).

Definition guard_room : Room :=
  mkRoom "A guard snores loudly in a chair. There's a door behind him."
    [("back", "Corridor"); ("forward", "Kitchen")]
    []
    (Some (mkObstacle "guard" "Torch" "The guard blocks your path!" (Some "forward"))).

Definition kitchen_room : Room :=
  mkRoom "A filthy kitchen with moldy food. A torch burns on the wall."
    [("back", "Guard Room"); ("right", "Armory")]
    ["Torch"; "Food"]
    None.

Definition armory_room : Room :=
  mkRoom "Weapons rust on racks. A strongbox sits in the center."
    [("back", "Kitchen"); ("north", "Treasury")]
    []
    (Some (mkObstacle "chest" "Crowbar" "The strongbox is jammed shut!" None)).

(** The world of [create_world] with the player put in [room], carrying
    [inv], and [lines] waiting on the console. *)
Definition sample (room : string) (inv lines : list string) : Game :=
  mkGame (mkPlayer "Ann" inv room default_max_inventory) create_world lines [].


(** ** The two situations of a game started by [main] *)

(** The cell once the Crowbar has been picked up. *)
Definition cell_emptied : Room := set_items [] cell_room.

(** The player is in the cell, the door is locked, and the Crowbar is either
    on the floor or in the bag. *)
Definition locked_in (g : Game) : Prop :=
  ∃ player_name,
    (player g = mkPlayer player_name [] "Dungeon Cell" default_max_inventory ∧
     world g = create_world) ∨
    (player g = mkPlayer player_name ["Crowbar"] "Dungeon Cell" default_max_inventory ∧
     world g = <["Dungeon Cell" := cell_emptied]> create_world).

(** A step that starts locked in ends locked in. *)
Definition stays_locked (g g' : Game) : Prop := locked_in g → locked_in g'.

(** * Vocabulary for the further properties *)

(** The words that [main] understands, after lowering. *)
Definition known_commands : list string :=
  ["look"; "take"; "move"; "use"; "inventory"; "i"; "quit"; "q"; "help"; "h"].

(** The state in which [turn] hands the typed command to [dispatch]: the
    location line and the prompt are printed and the command line is
    consumed. *)
Definition at_dispatch (g : Game) (rest : list string) : Game :=
  mkGame (player g) (world g) rest
    (stdout g ++ [nl +:+ "[Current Location: " +:+ location (player g) +:+ "]";
                  nl +:+ "What will you do? "]).

(** What [main] prints when the player has escaped. *)
Definition victory_lines (player_name : string) : list string :=
  [nl +:+ str_mul "-" 40; " VICTORY"; str_mul "-" 40;
   "Congratulations " +:+ player_name +:+ "! You've escaped!"].

(** ** The game as a transition system *)

(** The part of the state that the rules of the game are about: the player
    object and the world dictionary, the console left aside. *)
Definition play (g : Game) : Player * gmap string Room := (player g, world g).

(** What one command can do to the player and the world.  Each rule names
    the code that fires it. *)
Inductive play_step : relation (Player * gmap string Room) :=
  | step_none (p : Player) (w : gmap string Room) :
      (* a command that only talks: look, inventory, help, a cancelled or
         refused menu, an error *)
      play_step (p, w) (p, w)
  | step_take (p : Player) (w : gmap string Room) (r : Room) (item : string) :
      (* handle_take, through Player.add_item *)
      w !! location p = Some r →
      item ∈ items r →
      (Z.of_nat (length (inventory p)) < max_inventory p)%Z →
      play_step (p, w)
        (set_inventory (inventory p ++ [item]) p,
         <[location p := set_items (list_remove item (items r)) r]> w)
  | step_chest (p : Player) (w : gmap string Room) (armory : Room) (ob : Obstacle) :
      (* handle_locked_chest *)
      location p = "Armory" →
      w !! "Armory" = Some armory →
      obstacle armory = Some ob →
      type ob = "chest" →
      "Crowbar" ∈ inventory p →
      play_step (p, w)
        (set_inventory (list_remove "Crowbar" (inventory p)) p,
         <["Armory" := opened armory]> w)
  | step_resolve (p : Player) (w : gmap string Room) (r : Room) (ob : Obstacle) :
      (* handle_use_item, after the strongbox case *)
      w !! location p = Some r →
      obstacle r = Some ob →
      required_item ob ∈ inventory p →
      ¬ (location p = "Armory" ∧ required_item ob = "Crowbar" ∧ type ob = "chest") →
      play_step (p, w)
        (if contains (required_item ob) ["Cell Key"; "Iron Key"]
         then set_inventory (list_remove (required_item ob) (inventory p)) p
         else p,
         <[location p := set_obstacle None r]> w)
  | step_gem (p : Player) (w : gmap string Room) (treasury : Room) :
      (* handle_special_interactions, called by handle_look *)
      location p = "Treasury" →
      "Gem" ∈ inventory p →
      w !! "Treasury" = Some treasury →
      play_step (p, w) (p, <["Treasury" := set_obstacle None treasury]> w)
  | step_move (p : Player) (w : gmap string Room) (r : Room) (d t : string) :
      (* handle_movement_execution *)
      w !! location p = Some r →
      ¬ blocked r d →
      dict_get (exits r) d = Some t →
      play_step (p, w) (set_location t p, w).

(** ** Invariants of the play *)

(** The bag holds no more than its capacity. *)
Definition within_capacity (s : Player * gmap string Room) : Prop :=
  (Z.of_nat (length (inventory s.1)) ≤ max_inventory s.1)%Z.

(** Every exit of every room leads to a room of the world. *)
Definition closed (w : gmap string Room) : Prop :=
  ∀ k r d t, w !! k = Some r → dict_get (exits r) d = Some t → is_Some (w !! t).

(** The player stands in a room of a closed world. *)
Definition well_formed (s : Player * gmap string Room) : Prop :=
  is_Some (s.2 !! location s.1) ∧ closed s.2.

(** The items that a use can take out of the bag. *)
Definition consumables : list string := ["Crowbar"; "Cell Key"; "Iron Key"].

(** The number of copies of [x] in the game: those in the bag and those in
    the item lists of the rooms. *)
Definition census (x : string) (s : Player * gmap string Room) : nat :=
  (copies x (inventory s.1)
   + map_fold (λ _ r n, copies x (items r) + n) 0 s.2)%nat.

(** ** Exceptions *)

(** The ways in which a handler started in [g] may fail: the input has run
    out, the player's location is not a key of the world, or the failure is
    a [GameError], which the loop reports. *)
Definition fails_as_expected {A : Type} (g : Game) (r : outcome A * Game) : Prop :=
  ∀ e, r.1 = Raise e →
    (e = EOFError ∧ stdin r.2 = []) ∨
    (e = KeyError (location (player g)) ∧ world g !! location (player g) = None) ∨
    is_GameError e = true.

(** * Verification *)

(** ** The rooms named above are those of [create_world] *)

Lemma create_world_rooms :
  create_world !! "Dungeon Cell" = Some cell_room ∧
  create_world !! "Guard Room" = Some guard_room ∧
  create_world !! "Kitchen" = Some kitchen_room ∧
  create_world !! "Armory" = Some armory_room.
Proof. repeat split; reflexivity. Qed.

Lemma create_world_dom :
  dom create_world =
  list_to_set
    ["Dungeon Cell"; "Corridor"; "Guard Room"; "Storage Room"; "Kitchen";
     "Armory"; "Library"; "Study"; "Secret Passage"; "Torture Chamber";
     "Treasury"; "Courtyard"; "Exit Gate"].
Proof. unfold create_world. rewrite dom_list_to_map_L. reflexivity. Qed.

(** ** Running the monad *)

#[global] Arguments contains : simpl never.
#[global] Arguments py_int : simpl never.
#[global] Arguments py_index : simpl never.
#[global] Arguments lower : simpl never.
#[global] Arguments str_mul : simpl never.
#[global] Arguments String.append : simpl never.

Lemma run_bind {A B : Type} (m : M A) (f : A → M B) (g : Game) :
  (m ≫= f) g =
  match m g with
  | (Return a, g') => f a g'
  | (Raise e, g') => (Raise e, g')
  end.
Proof. reflexivity. Qed.

Lemma run_get_room_Some (k : string) (r : Room) (g : Game) :
  world g !! k = Some r → get_room k g = (Return r, g).
Proof. intros H. unfold get_room. rewrite run_bind. simpl. by rewrite H. Qed.

Lemma run_get_room_None (k : string) (g : Game) :
  world g !! k = None → get_room k g = (Raise (KeyError k), g).
Proof. intros H. unfold get_room. rewrite run_bind. simpl. by rewrite H. Qed.

Lemma run_update_room (k : string) (f : Room → Room) (r : Room) (g : Game) :
  world g !! k = Some r →
  update_room k f g =
  (Return tt, mkGame (player g) (<[k := f r]> (world g)) (stdin g) (stdout g)).
Proof.
  intros H. unfold update_room. rewrite run_bind, (run_get_room_Some k r g H).
  rewrite run_bind. simpl. unfold put_world. simpl.
  do 2 f_equal. apply map_eq. intros i.
  destruct (decide (k = i)) as [->|Hne].
  - by rewrite lookup_alter_eq, lookup_insert_eq, H.
  - by rewrite lookup_alter_ne, lookup_insert_ne.
Qed.

(** ** Relations kept by every handler *)

Section Preservation.

Context (R : relation Game) `{!PreOrder R}.

Hypothesis R_print : ∀ s, preserves R (print s).
Hypothesis R_input : ∀ s, preserves R (input s).
Hypothesis R_inventory :
  ∀ f, preserves R (update_player (λ p, set_inventory (f p) p)).
Hypothesis R_items :
  ∀ k f, preserves R (update_room k (λ r, set_items (f r) r)).
Hypothesis R_obstacle : ∀ k, preserves R (update_room k (set_obstacle None)).

Lemma preserves_ret {A : Type} (a : A) : preserves R (mret a).
Proof. intros g. simpl. reflexivity. Qed.

Lemma preserves_raise {A : Type} (e : exn) : preserves R (@raise A e).
Proof. intros g. simpl. reflexivity. Qed.

Lemma preserves_bind {A B : Type} (m : M A) (f : A → M B) :
  preserves R m → (∀ a, preserves R (f a)) → preserves R (m ≫= f).
Proof.
  intros Hm Hf g. rewrite run_bind. specialize (Hm g).
  destruct (m g) as [[a|e] g']; simpl in *.
  - etransitivity; [exact Hm | apply Hf].
  - exact Hm.
Qed.

Lemma preserves_get_player : preserves R get_player.
Proof. intros g. simpl. reflexivity. Qed.

Lemma preserves_get_world : preserves R get_world.
Proof. intros g. simpl. reflexivity. Qed.

Lemma preserves_get_room (k : string) : preserves R (get_room k).
Proof.
  intros g. destruct (world g !! k) as [r|] eqn:E.
  - rewrite (run_get_room_Some k r g E). reflexivity.
  - rewrite (run_get_room_None k g E). reflexivity.
Qed.

Lemma preserves_try {A : Type} (body : M A) (handler : exn → M A) :
  preserves R body → (∀ e, preserves R (handler e)) →
  preserves R (try_GameError body handler).
Proof.
  intros Hb Hh g. unfold try_GameError. specialize (Hb g).
  destruct (body g) as [[a|e] g']; simpl in *; [exact Hb|].
  destruct (is_GameError e); simpl; [|exact Hb].
  etransitivity; [exact Hb | apply Hh].
Qed.

Ltac preserve :=
  repeat match goal with
    | |- preserves R (mret _) => apply preserves_ret
    | |- preserves R (raise _) => apply preserves_raise
    | |- preserves R get_player => apply preserves_get_player
    | |- preserves R get_world => apply preserves_get_world
    | |- preserves R (get_room _) => apply preserves_get_room
    | |- preserves R (print _) => apply R_print
    | |- preserves R (input _) => apply R_input
    | |- preserves R (update_player _) => apply R_inventory
    | |- preserves R (update_room _ (set_obstacle None)) => apply R_obstacle
    | |- preserves R (update_room _ _) => apply R_items
    | |- preserves R (_ ≫= _) => apply preserves_bind; [| intros ?]
    | |- preserves R (try_GameError _ _) => apply preserves_try; [| intros ?]
    | |- preserves R (if ?b then _ else _) => destruct b
    | |- preserves R (match ?x with _ => _ end) => destruct x
    | |- preserves R (let _ := _ in _) => cbv zeta
    end.

Lemma preserves_print_numbered (xs : list string) (i : nat) :
  preserves R (print_numbered i xs).
Proof.
  revert i. induction xs as [|x xs IH]; intros i; simpl;
    preserve; try apply IH.
Qed.

Lemma preserves_print_bullets (xs : list string) : preserves R (print_bullets xs).
Proof. induction xs as [|x xs IH]; simpl; preserve; try apply IH. Qed.

Lemma preserves_add_item (item : string) : preserves R (add_item item).
Proof.
  unfold add_item. preserve.
  all: try apply (R_inventory (λ p, inventory p ++ [item])).
Qed.

Lemma preserves_has_item (item : string) : preserves R (has_item item).
Proof. unfold has_item. preserve. Qed.

Lemma preserves_remove_item (item : string) : preserves R (remove_item item).
Proof.
  unfold remove_item. preserve.
  all: try apply (R_inventory (λ p, list_remove item (inventory p))).
Qed.

Lemma preserves_show_inventory : preserves R show_inventory.
Proof. unfold show_inventory. preserve; try apply preserves_print_bullets. Qed.

Lemma preserves_print_header (text : string) : preserves R (print_header text).
Proof. unfold print_header. preserve. Qed.

Lemma preserves_handle_locked_chest (item : string) :
  preserves R (handle_locked_chest item).
Proof.
  unfold handle_locked_chest. preserve.
  all: first [ apply (R_items "Armory" (λ r, items r ++ ["Cell Key"]))
             | apply (R_items "Armory" (λ r, items r ++ ["Iron Key"]))
             | apply preserves_remove_item ].
Qed.

Lemma preserves_handle_special_interactions : preserves R handle_special_interactions.
Proof. unfold handle_special_interactions. preserve; try apply preserves_has_item. Qed.

Lemma preserves_handle_look : preserves R handle_look.
Proof.
  unfold handle_look. preserve;
    try first [apply preserves_print_bullets | apply preserves_handle_special_interactions].
Qed.

Lemma preserves_handle_take : preserves R handle_take.
Proof.
  unfold handle_take. preserve;
    try first [ apply preserves_print_numbered | apply preserves_add_item
          | apply (R_items _ (λ r, list_remove _ (items r))) ].
Qed.

Lemma preserves_choose_item (required_item : option string) :
  preserves R (choose_item required_item).
Proof.
  unfold choose_item. preserve;
    try first [apply preserves_print_numbered | apply preserves_has_item].
Qed.

Lemma preserves_apply_item (item_to_use : string) : preserves R (apply_item item_to_use).
Proof.
  unfold apply_item. preserve;
    try first [apply preserves_handle_locked_chest | apply preserves_remove_item].
Qed.

Lemma preserves_handle_use_item (required_item : option string) :
  preserves R (handle_use_item required_item).
Proof.
  unfold handle_use_item. preserve;
    try first [apply preserves_choose_item | apply preserves_apply_item].
Qed.

(** Only a move writes the location. *)
Hypothesis R_location : ∀ l, preserves R (update_player (set_location l)).

Lemma preserves_handle_movement_execution (current_room direction : string) :
  preserves R (handle_movement_execution current_room direction).
Proof.
  unfold handle_movement_execution. preserve;
    try first [apply preserves_handle_use_item | apply R_location].
Qed.

Lemma preserves_handle_move : preserves R handle_move.
Proof.
  unfold handle_move. preserve;
    try first [ apply preserves_print_numbered
          | apply preserves_handle_movement_execution ].
Qed.

Lemma preserves_dispatch (command : string) : preserves R (dispatch command).
Proof.
  unfold dispatch. preserve;
    try first [ apply preserves_handle_look | apply preserves_handle_take
          | apply preserves_handle_move | apply preserves_handle_use_item
          | apply preserves_show_inventory ].
Qed.

Lemma preserves_turn : preserves R turn.
Proof.
  unfold turn. preserve;
    try first [apply preserves_dispatch | apply preserves_print_header].
Qed.

Lemma preserves_main_loop (fuel : nat) : preserves R (main_loop fuel).
Proof.
  induction fuel as [|n IH]; simpl; preserve;
    first [apply preserves_turn | apply IH].
Qed.

End Preservation.

(** ** What never changes: the structure of the world and the console order *)

Lemma room_kept_refl (r : Room) : room_kept r r.
Proof. repeat split; auto. Qed.

Lemma room_kept_trans (r1 r2 r3 : Room) :
  room_kept r1 r2 → room_kept r2 r3 → room_kept r1 r3.
Proof.
  intros (D1 & E1 & O1) (D2 & E2 & O2). repeat split; try congruence.
  destruct O2 as [O2|O2]; [|by right]. rewrite O2. exact O1.
Qed.

#[global] Instance world_kept_preorder : PreOrder world_kept.
Proof.
  split.
  - intros w. split; [done|]. intros k r Hk. exists r. split; [done|apply room_kept_refl].
  - intros w1 w2 w3 [D1 H1] [D2 H2]. split; [congruence|].
    intros k r Hk. destruct (H1 k r Hk) as (r2 & Hk2 & K12).
    destruct (H2 k r2 Hk2) as (r3 & Hk3 & K23).
    exists r3. split; [done|]. eapply room_kept_trans; eauto.
Qed.

#[global] Instance evolves_preorder : PreOrder evolves.
Proof.
  split.
  - intros g. by split.
  - intros g1 g2 g3 [] []. split; try congruence; by etransitivity.
Qed.

#[global] Instance stays_preorder : PreOrder stays.
Proof. split; unfold stays; [by intros g | intros g1 g2 g3; congruence]. Qed.

Lemma world_kept_insert (w : gmap string Room) (k : string) (r r' : Room) :
  w !! k = Some r → room_kept r r' → world_kept w (<[k := r']> w).
Proof.
  intros Hk Hr. split.
  - rewrite dom_insert_L.
    assert (Hd : k ∈ dom w) by (by apply elem_of_dom_2 with r).
    apply set_eq. intros x. rewrite elem_of_union, elem_of_singleton.
    split; [intros [->|]; done | by right].
  - intros k0 r0 Hk0. destruct (decide (k = k0)) as [->|Hne].
    + rewrite lookup_insert_eq. exists r'. split; [done|]. congruence.
    + rewrite lookup_insert_ne by done. exists r0. split; [done|apply room_kept_refl].
Qed.

Lemma update_room_cases (k : string) (f : Room → Room) (g : Game) :
  (update_room k f g).2 = g ∨
  ∃ r, world g !! k = Some r ∧
       (update_room k f g).2 =
       mkGame (player g) (<[k := f r]> (world g)) (stdin g) (stdout g).
Proof.
  destruct (world g !! k) as [r|] eqn:E.
  - right. exists r. split; [done|]. by rewrite (run_update_room k f r g E).
  - left. unfold update_room. by rewrite run_bind, (run_get_room_None k g E).
Qed.

Lemma evolves_print (s : string) : preserves evolves (print s).
Proof. intros g. split; simpl; try done. by apply prefix_app_r. Qed.

Lemma evolves_input (s : string) : preserves evolves (input s).
Proof.
  intros g. unfold input.
  destruct (stdin g) as [|line rest] eqn:E; split; simpl; rewrite ?E;
    auto using prefix_app_r, suffix_cons_r.
  all: try reflexivity.
Qed.

Lemma evolves_update_player (f : Player → Player) :
  (∀ p, name (f p) = name p ∧ max_inventory (f p) = max_inventory p) →
  preserves evolves (update_player f).
Proof. intros Hf g. split; simpl; try done; apply Hf. Qed.

Lemma evolves_update_room (k : string) (f : Room → Room) :
  (∀ r, room_kept r (f r)) → preserves evolves (update_room k f).
Proof.
  intros Hf g. destruct (update_room_cases k f g) as [->|(r & Hk & ->)]; [done|].
  split; simpl; try done. by apply world_kept_insert with r.
Qed.

Lemma stays_console {A : Type} (m : M A) :
  (∀ g, player (m g).2 = player g) → preserves stays m.
Proof. intros H g. unfold stays. by rewrite H. Qed.

Lemma stays_update_room (k : string) (f : Room → Room) :
  preserves stays (update_room k f).
Proof.
  intros g. unfold stays.
  by destruct (update_room_cases k f g) as [->|(r & Hk & ->)].
Qed.

(** Every handler, and the loop, is an evolution of the game. *)

Lemma evolves_inventory (f : Player → list string) :
  preserves evolves (update_player (λ p, set_inventory (f p) p)).
Proof. by apply evolves_update_player. Qed.

Lemma evolves_items (k : string) (f : Room → list string) :
  preserves evolves (update_room k (λ r, set_items (f r) r)).
Proof. apply evolves_update_room. intros r. repeat split; auto. Qed.

Lemma evolves_obstacle (k : string) :
  preserves evolves (update_room k (set_obstacle None)).
Proof. apply evolves_update_room. intros r. repeat split; auto. Qed.

Lemma evolves_location (l : string) :
  preserves evolves (update_player (set_location l)).
Proof. by apply evolves_update_player. Qed.

Create HintDb game discriminated.

#[global] Hint Resolve evolves_print evolves_input evolves_inventory
  evolves_items evolves_obstacle evolves_location : game.

Lemma evolves_handle_use_item (required_item : option string) :
  preserves evolves (handle_use_item required_item).
Proof. apply preserves_handle_use_item; auto with game typeclass_instances. Qed.

Lemma evolves_handle_movement_execution (current_room direction : string) :
  preserves evolves (handle_movement_execution current_room direction).
Proof.
  apply preserves_handle_movement_execution; auto with game typeclass_instances.
Qed.

Lemma evolves_dispatch (command : string) : preserves evolves (dispatch command).
Proof. apply preserves_dispatch; auto with game typeclass_instances. Qed.

Lemma evolves_turn : preserves evolves turn.
Proof. apply preserves_turn; auto with game typeclass_instances. Qed.

Lemma evolves_main_loop (fuel : nat) : preserves evolves (main_loop fuel).
Proof. apply preserves_main_loop; auto with game typeclass_instances. Qed.

(** A use of an item never moves the player. *)

Lemma stays_print (s : string) : preserves stays (print s).
Proof. by apply stays_console. Qed.

Lemma stays_input (s : string) : preserves stays (input s).
Proof. apply stays_console. intros g. unfold input. by destruct (stdin g). Qed.

Lemma stays_inventory (f : Player → list string) :
  preserves stays (update_player (λ p, set_inventory (f p) p)).
Proof. by intros g. Qed.

Lemma stays_items (k : string) (f : Room → list string) :
  preserves stays (update_room k (λ r, set_items (f r) r)).
Proof. apply stays_update_room. Qed.

Lemma stays_obstacle (k : string) :
  preserves stays (update_room k (set_obstacle None)).
Proof. apply stays_update_room. Qed.

#[global] Hint Resolve stays_print stays_input stays_inventory
  stays_items stays_obstacle : game.

Lemma stays_handle_use_item (required_item : option string) :
  preserves stays (handle_use_item required_item).
Proof. apply preserves_handle_use_item; auto with game typeclass_instances. Qed.

Lemma stays_handle_look : preserves stays handle_look.
Proof. apply preserves_handle_look; auto with game typeclass_instances. Qed.

Lemma stays_handle_take : preserves stays handle_take.
Proof. apply preserves_handle_take; auto with game typeclass_instances. Qed.

Lemma evolves_handle_look : preserves evolves handle_look.
Proof. apply preserves_handle_look; auto with game typeclass_instances. Qed.

Lemma evolves_handle_take : preserves evolves handle_take.
Proof. apply preserves_handle_take; auto with game typeclass_instances. Qed.

Lemma evolves_handle_move : preserves evolves handle_move.
Proof. apply preserves_handle_move; auto with game typeclass_instances. Qed.

Lemma evolves_show_inventory : preserves evolves show_inventory.
Proof. apply preserves_show_inventory; auto with game typeclass_instances. Qed.

(** C9.  Every operation of the game keeps the structure of the world: the
    set of room identifiers, and the description and the exits of every
    room, are those it started from; a room's obstacle is left as it was or
    cleared, so an obstacle that is absent stays absent.  This holds for
    each handler, whatever its outcome, and for any number of turns of the
    game loop. *)
Theorem world_structure_preserved :
  (∀ g, world_kept (world g) (world (handle_look g).2)) ∧
  (∀ g, world_kept (world g) (world (handle_take g).2)) ∧
  (∀ g, world_kept (world g) (world (handle_move g).2)) ∧
  (∀ required_item g,
      world_kept (world g) (world (handle_use_item required_item g).2)) ∧
  (∀ g, world_kept (world g) (world (show_inventory g).2)) ∧
  (∀ fuel g, world_kept (world g) (world (main_loop fuel g).2)).
Proof.
  repeat match goal with |- _ ∧ _ => split end; intros.
  - apply evolves_handle_look.
  - apply evolves_handle_take.
  - apply evolves_handle_move.
  - apply evolves_handle_use_item.
  - apply evolves_show_inventory.
  - apply evolves_main_loop.
Qed.

(** An absent obstacle stays absent: the reading of [world_kept] that the
    game relies on. *)
Lemma world_kept_cleared (w w' : gmap string Room) (k : string) (r : Room) :
  world_kept w w' → w !! k = Some r → obstacle r = None →
  ∃ r', w' !! k = Some r' ∧ obstacle r' = None ∧
        description r' = description r ∧ exits r' = exits r.
Proof.
  intros [_ H] Hk Ho. destruct (H k r Hk) as (r' & Hk' & D & E & O).
  exists r'. repeat split; auto. destruct O; congruence.
Qed.

(** ** Console-only computations *)

Lemma run_print (s : string) (g : Game) :
  print s g = (Return tt, with_stdout (stdout g ++ [s]) g).
Proof. reflexivity. Qed.

Lemma run_print_bullets (xs : list string) (g : Game) :
  ∃ out, print_bullets xs g = (Return tt, with_stdout (stdout g ++ out) g).
Proof.
  revert g. induction xs as [|x xs IH]; intros g; simpl.
  - exists []. unfold with_stdout. rewrite app_nil_r. by destruct g.
  - rewrite run_bind, run_print.
    destruct (IH (with_stdout (stdout g ++ ["- " +:+ x]) g)) as [out ->].
    exists (("- " +:+ x) :: out). unfold with_stdout. simpl.
    by rewrite <- app_assoc.
Qed.

Lemma run_print_numbered (xs : list string) (i : nat) (g : Game) :
  ∃ out, print_numbered i xs g = (Return tt, with_stdout (stdout g ++ out) g).
Proof.
  revert i g. induction xs as [|x xs IH]; intros i g; simpl.
  - exists []. unfold with_stdout. rewrite app_nil_r. by destruct g.
  - rewrite run_bind, run_print.
    destruct (IH (S i) (with_stdout (stdout g ++ [pretty i +:+ ". " +:+ x]) g))
      as [out ->].
    exists ((pretty i +:+ ". " +:+ x) :: out). unfold with_stdout. simpl.
    by rewrite <- app_assoc.
Qed.

#[global] Arguments print_numbered : simpl never.
#[global] Arguments print_bullets : simpl never.

Lemma contains_true (x : string) (l : list string) : contains x l = true ↔ x ∈ l.
Proof. unfold contains. by rewrite bool_decide_eq_true. Qed.

Lemma contains_false (x : string) (l : list string) : contains x l = false ↔ x ∉ l.
Proof. unfold contains. by rewrite bool_decide_eq_false. Qed.

Lemma eqb_true (s t : string) : String.eqb s t = true ↔ s = t.
Proof. apply String.eqb_eq. Qed.

Lemma eqb_false (s t : string) : String.eqb s t = false ↔ s ≠ t.
Proof. apply String.eqb_neq. Qed.

Lemma run_special_treasury (g : Game) (r : Room) :
  location (player g) = "Treasury" →
  "Gem" ∈ inventory (player g) →
  world g !! "Treasury" = Some r →
  handle_special_interactions g =
  (Return tt,
   mkGame (player g) (<["Treasury" := set_obstacle None r]> (world g)) (stdin g)
     (stdout g ++
        [nl +:+ "The guard is mesmerized by your glittering gem!";
         "'Such beauty!' he exclaims, stepping aside to let you access the treasure."])).
Proof.
  intros Hloc Hgem Hr. unfold handle_special_interactions.
  apply contains_true in Hgem.
  unfold has_item, mbind, mret, M_bind, M_ret. simpl.
  rewrite Hloc. simpl. rewrite Hgem. simpl.
  rewrite (run_update_room "Treasury" _ r) by done. simpl.
  by rewrite <- app_assoc.
Qed.

(** What [handle_look] prints before the special interactions. *)
Lemma run_look_listing {A : Type} (r : Room) (k : M A) (g : Game) :
  ∃ out,
    (match items r with
     | _ :: _ =>
         print (nl +:+ "You see:");;
         print_bullets (items r)
     | [] => print (nl +:+ "There are no items of interest here.")
     end;;
     match obstacle r with
     | Some ob => print (nl +:+ "! " +:+ message ob)
     | None => mret tt
     end;;
     k) g = k (with_stdout (stdout g ++ out) g).
Proof.
  rewrite run_bind.
  assert (∃ out1, (match items r with
                   | _ :: _ =>
                       print (nl +:+ "You see:");;
                       print_bullets (items r)
                   | [] => print (nl +:+ "There are no items of interest here.")
                   end) g = (Return tt, with_stdout (stdout g ++ out1) g))
    as [out1 ->].
  { destruct (items r) as [|x xs].
    - by exists [nl +:+ "There are no items of interest here."].
    - rewrite run_bind, run_print.
      destruct (run_print_bullets (x :: xs)
                  (with_stdout (stdout g ++ [nl +:+ "You see:"]) g)) as [out ->].
      exists ((nl +:+ "You see:") :: out). unfold with_stdout; simpl.
      by rewrite <- !app_assoc. }
  rewrite run_bind.
  destruct (obstacle r) as [ob|].
  - rewrite run_print. exists (out1 ++ [nl +:+ "! " +:+ message ob])%list.
    unfold with_stdout; simpl. by rewrite <- !app_assoc.
  - exists out1. reflexivity.
Qed.

(** C8.  Whenever the player is in the Treasury and carries the Gem, a look
    at the room returns normally and clears the obstacle of the Treasury
    (also when it is observed again); the player, and so the inventory, is
    exactly as before, as are the other fields of the Treasury and all
    other rooms. *)
Theorem look_in_treasury_clears_guard (g : Game) (r : Room) :
  location (player g) = "Treasury" →
  "Gem" ∈ inventory (player g) →
  world g !! "Treasury" = Some r →
  ∃ out,
    handle_look g =
    (Return tt,
     mkGame (player g) (<["Treasury" := set_obstacle None r]> (world g))
       (stdin g) (stdout g ++ out)).
Proof.
  intros Hloc Hgem Hr.
  unfold handle_look. rewrite run_bind. simpl.
  rewrite run_bind, (run_get_room_Some _ r g) by (by rewrite Hloc).
  rewrite run_bind, run_print.
  set (g1 := with_stdout _ g).
  destruct (run_look_listing r handle_special_interactions g1) as [out ->].
  rewrite (run_special_treasury _ r) by done. simpl.
  eexists. rewrite <- !app_assoc. reflexivity.
Qed.

Lemma look_in_treasury_clears_guard_witness :
  ∃ out,
    handle_look
      (mkGame (mkPlayer "Ann" ["Torch"; "Gem"] "Treasury" 4) create_world [] []) =
    (Return tt,
     mkGame (mkPlayer "Ann" ["Torch"; "Gem"] "Treasury" 4)
       (<["Treasury" :=
            mkRoom "Glittering treasures line the walls. A suspicious guard stands watch."
              [("south", "Armory")] ["Gold Coin"] None]> create_world)
       [] ([] ++ out)).
Proof.
  apply (look_in_treasury_clears_guard
           (mkGame (mkPlayer "Ann" ["Torch"; "Gem"] "Treasury" 4) create_world [] [])
           (mkRoom "Glittering treasures line the walls. A suspicious guard stands watch."
              [("south", "Armory")] ["Gold Coin"]
              (Some (mkObstacle "guard" "Gem" "A guard blocks access to the treasure!" None)))).
  - reflexivity.
  - simpl. set_solver.
  - reflexivity.
Defined.

(** ** Using an item *)

Ltac run_numbered :=
  match goal with
  | |- context [print_numbered ?i ?l ?G] =>
      let out := fresh "out" in
      let E := fresh "E" in
      destruct (run_print_numbered l i G) as [out E]; rewrite E; clear E; simpl
  end.

Lemma py_index_elem {A : Type} (l : list A) (i : Z) (x : A) :
  py_index l i = Some x → x ∈ l.
Proof.
  unfold py_index. intros H.
  destruct (_ && _)%bool; [by eapply list_elem_of_lookup_2|].
  destruct (_ && _)%bool; [by eapply list_elem_of_lookup_2|done].
Qed.

Lemma list_remove_absent (x : string) (l : list string) : x ∉ l → list_remove x l = l.
Proof.
  induction l as [|y l IH]; [done|]. intros Hn. simpl.
  destruct (String.eqb x y) eqn:E.
  - apply eqb_true in E. subst. exfalso. apply Hn. by left.
  - f_equal. apply IH. intros Hin. apply Hn. by right.
Qed.

Lemma copies_app (x : string) (l l' : list string) :
  copies x (l ++ l') = (copies x l + copies x l')%nat.
Proof. unfold copies. by rewrite filter_app, length_app. Qed.

Lemma copies_one (x y : string) :
  copies x [y] = if decide (y = x) then 1%nat else 0%nat.
Proof.
  unfold copies. destruct (decide (y = x)) as [H|H].
  - by rewrite filter_cons_True.
  - by rewrite filter_cons_False.
Qed.


(** [list_remove] takes out the first occurrence. *)
Lemma list_remove_first (x : string) (l : list string) :
  x ∈ l → removed_first x l (list_remove x l).
Proof.
  induction l as [|y l IH]; intros Hin; [by apply elem_of_nil in Hin|].
  simpl. destruct (String.eqb x y) eqn:E.
  - apply eqb_true in E as <-. exists [], l. repeat split. apply not_elem_of_nil.
  - apply eqb_false in E. apply elem_of_cons in Hin as [->|Hin]; [done|].
    destruct (IH Hin) as (before & after & -> & Hb & ->).
    exists (y :: before), after. repeat split.
    by apply not_elem_of_cons.
Qed.


(** Choosing the item touches the console only, and the item chosen is one
    the player carries. *)
Lemma choose_item_frame (required_item : option string) (g : Game) :
  player (choose_item required_item g).2 = player g ∧
  world (choose_item required_item g).2 = world g ∧
  stdout g `prefix_of` stdout (choose_item required_item g).2 ∧
  ∀ item, uses required_item g item → item ∈ inventory (player g).
Proof.
  unfold uses, choose_item, has_item, mbind, mret, M_bind, M_ret. simpl.
  destruct (inventory (player g)) as [|x xs] eqn:Einv; simpl.
  { repeat split; try done. by apply prefix_app_r. }
  destruct (hinted required_item) eqn:Eh; simpl.
  - destruct (contains _ _) eqn:Ec; simpl.
    + repeat split; try done. intros item [= <-].
      apply contains_true in Ec. by rewrite <- Einv.
    + repeat split; try done. by apply prefix_app_r.
  - run_numbered.
    unfold input. simpl.
    destruct (stdin g) as [|line rest]; simpl.
    { repeat split; try done. rewrite <- !app_assoc. by apply prefix_app_r. }
    destruct (py_int line) as [choice|]; simpl.
    2: { repeat split; try done. rewrite <- !app_assoc. by apply prefix_app_r. }
    destruct (Z.eqb choice 0); simpl.
    { repeat split; try done. rewrite <- !app_assoc. by apply prefix_app_r. }
    destruct (py_index (x :: xs) (choice - 1)) as [item|] eqn:Ei; simpl.
    + repeat split; try done.
      * rewrite <- !app_assoc. by apply prefix_app_r.
      * intros it [= <-]. by apply py_index_elem in Ei.
    + repeat split; try done. rewrite <- !app_assoc. by apply prefix_app_r.
Qed.

Lemma run_handle_use_item (required_item : option string) (g : Game) (item : string) :
  uses required_item g item →
  handle_use_item required_item g = apply_item item (choose_item required_item g).2.
Proof.
  unfold uses, handle_use_item. rewrite run_bind.
  destruct (choose_item required_item g) as [[[it|]|e] g1]; simpl; try done.
  by intros [= ->].
Qed.

Lemma run_locked_chest_false (g : Game) (item : string) (r : Room) :
  world g !! location (player g) = Some r →
  ¬ chest_applies g item →
  handle_locked_chest item g = (Return false, g).
Proof.
  intros Hr Hn. unfold handle_locked_chest, mbind, mret, M_bind, M_ret. simpl.
  destruct (String.eqb (location (player g)) "Armory") eqn:El; simpl; [|done].
  destruct (String.eqb item "Crowbar") eqn:Ei; simpl; [|done].
  apply eqb_true in El, Ei. rewrite El in Hr.
  rewrite (run_get_room_Some "Armory" r g Hr).
  destruct (obstacle r) as [ob|] eqn:Eo; [|done].
  destruct (String.eqb (type ob) "chest") eqn:Et; [|done].
  apply eqb_true in Et. exfalso. apply Hn. repeat split; eauto.
Qed.

Lemma run_locked_chest_true (g : Game) (armory : Room) (ob : Obstacle) :
  location (player g) = "Armory" →
  world g !! "Armory" = Some armory →
  obstacle armory = Some ob →
  type ob = "chest" →
  "Crowbar" ∈ inventory (player g) →
  handle_locked_chest "Crowbar" g =
  (Return true,
   mkGame (set_inventory (list_remove "Crowbar" (inventory (player g))) (player g))
     (<["Armory" := opened armory]> (world g))
     (stdin g)
     (stdout g ++ [nl +:+ "You pry open the strongbox with the crowbar!";
                   "You found a Cell Key and an Iron Key inside!"])).
Proof.
  intros Hl Ha Ho Ht Hc. apply contains_true in Hc.
  unfold handle_locked_chest, remove_item, mbind, mret, M_bind, M_ret. simpl.
  rewrite Hl. simpl. rewrite (run_get_room_Some "Armory" armory g Ha).
  rewrite Ho, Ht. simpl.
  rewrite (run_update_room "Armory" _ armory) by done. simpl.
  rewrite (run_update_room "Armory" _ _ _ (lookup_insert_eq _ _ _)). simpl.
  rewrite (run_update_room "Armory" _ _ _ (lookup_insert_eq _ _ _)). simpl.
  rewrite Hc. simpl. rewrite !insert_insert_eq.
  unfold opened, set_obstacle, set_items. simpl.
  by rewrite <- !app_assoc.
Qed.

(** The generic branch fires: the obstacle of the current room is cleared
    and a key is consumed. *)
Lemma run_apply_item_match (g : Game) (item : string) (r : Room) (ob : Obstacle) :
  world g !! location (player g) = Some r →
  obstacle r = Some ob →
  ¬ chest_applies g item →
  item = required_item ob →
  item ∈ inventory (player g) →
  ∃ out,
    apply_item item g =
    (Return tt,
     mkGame (if contains item ["Cell Key"; "Iron Key"]
             then set_inventory (list_remove item (inventory (player g))) (player g)
             else player g)
       (<[location (player g) := set_obstacle None r]> (world g))
       (stdin g) (stdout g ++ out)).
Proof.
  intros Hr Ho Hn -> Hin. apply contains_true in Hin.
  unfold apply_item. rewrite run_bind, (run_locked_chest_false g _ r Hr Hn).
  unfold remove_item, mbind, mret, M_bind, M_ret. simpl.
  rewrite (run_get_room_Some _ r g Hr), Ho, String.eqb_refl. simpl.
  assert (∃ out1, ∀ g0,
    (if String.eqb (type ob) "locked"
     then print ("You unlocked the door with the " +:+ required_item ob +:+ ".")
     else if String.eqb (type ob) "guard"
     then print ("You distracted the guard with the " +:+ required_item ob +:+ ".")
     else if String.eqb (type ob) "pit"
     then print ("You used the " +:+ required_item ob +:+ " to cross the pit safely.")
     else if String.eqb (type ob) "gate"
     then print ("You unlocked the gate with the " +:+ required_item ob +:+ ".")
     else λ g, (Return tt, g)) g0 = (Return tt, with_stdout (stdout g0 ++ out1) g0))
    as [out1 E].
  { repeat (destruct (String.eqb (type ob) _); [by eexists [_]|]).
    exists []. intros g0. unfold with_stdout. rewrite app_nil_r. by destruct g0. }
  rewrite E. simpl.
  rewrite (run_update_room _ _ r) by done. simpl.
  destruct (contains (required_item ob) ["Cell Key"; "Iron Key"]); simpl.
  - rewrite Hin. simpl. eexists. rewrite <- !app_assoc. reflexivity.
  - eexists. rewrite <- !app_assoc. reflexivity.
Qed.

(** The generic branch does not fire: only a line is printed. *)
Lemma run_apply_item_miss (g : Game) (item : string) (r : Room) :
  world g !! location (player g) = Some r →
  ¬ chest_applies g item →
  (∀ ob, obstacle r = Some ob → item ≠ required_item ob) →
  apply_item item g =
  (Return tt,
   with_stdout
     (stdout g ++ [nl +:+ "You used the " +:+ item +:+ ", but nothing happened."]) g).
Proof.
  intros Hr Hn Hmiss.
  unfold apply_item. rewrite run_bind, (run_locked_chest_false g _ r Hr Hn).
  unfold mbind, mret, M_bind, M_ret. simpl.
  rewrite (run_get_room_Some _ r g Hr).
  destruct (obstacle r) as [ob|] eqn:Eo; [|done].
  destruct (String.eqb item (required_item ob)) eqn:E; [|done].
  apply eqb_true in E. by destruct (Hmiss ob eq_refl).
Qed.

Lemma run_apply_item_chest (g : Game) (armory : Room) (ob : Obstacle) :
  location (player g) = "Armory" →
  world g !! "Armory" = Some armory →
  obstacle armory = Some ob →
  type ob = "chest" →
  "Crowbar" ∈ inventory (player g) →
  apply_item "Crowbar" g =
  (Return tt,
   mkGame (set_inventory (list_remove "Crowbar" (inventory (player g))) (player g))
     (<["Armory" := opened armory]> (world g))
     (stdin g)
     (stdout g ++ [nl +:+ "You pry open the strongbox with the crowbar!";
                   "You found a Cell Key and an Iron Key inside!"])).
Proof.
  intros Hl Ha Ho Ht Hc. unfold apply_item.
  by rewrite run_bind, (run_locked_chest_true g armory ob).
Qed.

(** The state in which [apply_item] starts has the player and the world of
    the state in which [handle_use_item] was called. *)
Lemma chest_applies_chosen (required_item : option string) (g : Game) (item : string) :
  chest_applies (choose_item required_item g).2 item ↔ chest_applies g item.
Proof.
  destruct (choose_item_frame required_item g) as (Hp & Hw & _).
  unfold chest_applies. by rewrite Hp, Hw.
Qed.


(** A use that misses: after the choice of the item, one line is printed
    and nothing else happens. *)
Lemma run_use_miss (hint : option string) (g : Game) (item : string) (r : Room) :
  uses hint g item →
  world g !! location (player g) = Some r →
  ¬ chest_applies g item →
  (∀ ob, obstacle r = Some ob → item ≠ required_item ob) →
  let g1 := (choose_item hint g).2 in
  handle_use_item hint g =
  (Return tt,
   with_stdout
     (stdout g1 ++ [nl +:+ "You used the " +:+ item +:+ ", but nothing happened."])
     g1).
Proof.
  intros Hu Hr Hn Hmiss g1.
  destruct (choose_item_frame hint g) as (Hp & Hw & _).
  rewrite (run_handle_use_item _ _ _ Hu). fold g1.
  apply (run_apply_item_miss g1 item r); unfold g1; auto.
  - by rewrite Hp, Hw.
  - by rewrite chest_applies_chosen.
Qed.

(** C6.  A use of an item that is not the required item of the obstacle of
    the current room, or in a room without obstacle, when the strongbox case
    does not apply, returns normally and leaves the player (so the
    inventory) and the world (so the obstacle) exactly as they were. *)
Theorem use_without_match_is_inert
    (hint : option string) (g : Game) (item : string) (r : Room) :
  uses hint g item →
  world g !! location (player g) = Some r →
  ¬ chest_applies g item →
  (∀ ob, obstacle r = Some ob → item ≠ required_item ob) →
  (handle_use_item hint g).1 = Return tt ∧
  player (handle_use_item hint g).2 = player g ∧
  world (handle_use_item hint g).2 = world g.
Proof.
  intros Hu Hr Hn Hmiss.
  destruct (choose_item_frame hint g) as (Hp & Hw & _).
  rewrite (run_use_miss hint g item r Hu Hr Hn Hmiss). simpl.
  by rewrite Hp, Hw.
Qed.


Lemma use_without_match_is_inert_witness :
  let g := sample "Dungeon Cell" ["Crowbar"] ["1"] in
  (handle_use_item None g).1 = Return tt ∧
  player (handle_use_item None g).2 = player g ∧
  world (handle_use_item None g).2 = world g.
Proof.
  apply (use_without_match_is_inert None (sample "Dungeon Cell" ["Crowbar"] ["1"])
           "Crowbar" cell_room).
  - reflexivity.
  - reflexivity.
  - intros [H _]. discriminate H.
  - intros ob [= <-]. discriminate.
Defined.

(** C2, as amended.  In every state with an obstacle in the player's room,
    a use of an item to which the strongbox case does not apply clears the
    obstacle if and only if the item is the obstacle's required item; when
    it does, the item is removed from the inventory if it is "Cell Key" or
    "Iron Key" (its first copy is gone, every other item is where it was),
    and the inventory is unchanged for every other item. *)
Theorem use_resolves_outside_chest
    (hint : option string) (g : Game) (item : string) :
  uses hint g item →
  ¬ chest_applies g item →
  use_resolves hint g item.
Proof.
  intros Hu Hn r ob Hr Ho g'.
  destruct (choose_item_frame hint g) as (Hp & Hw & _ & Hin).
  specialize (Hin item Hu).
  assert (Hr1 : world (choose_item hint g).2 !! location (player (choose_item hint g).2)
                = Some r) by (by rewrite Hp, Hw).
  assert (Hn1 : ¬ chest_applies (choose_item hint g).2 item)
    by (by rewrite chest_applies_chosen).
  unfold g'. rewrite (run_handle_use_item _ _ _ Hu).
  destruct (decide (item = required_item ob)) as [Heq|Hne].
  - destruct (run_apply_item_match _ item r ob Hr1 Ho Hn1 Heq) as [out ->];
      [by rewrite Hp|].
    rewrite Hp, Hw. split.
    + split; [done|]. intros _. exists (set_obstacle None r). split; [|done].
      simpl. destruct (contains item _); simpl; by rewrite lookup_insert_eq.
    + intros _. split; intros Hk.
      * apply contains_true in Hk. simpl. rewrite Hk. simpl.
        by apply list_remove_first.
      * apply contains_false in Hk. simpl. by rewrite Hk.
  - rewrite (run_apply_item_miss _ item r Hr1 Hn1).
    2: { intros ob' Ho'. congruence. }
    split; [|done]. split; [|done].
    intros (r' & Hr' & Ho'). simpl in Hr'. rewrite Hp, Hw in Hr'. congruence.
Qed.

Lemma use_resolves_outside_chest_witness :
  use_resolves None (sample "Dungeon Cell" ["Crowbar"; "Cell Key"] ["2"]) "Cell Key".
Proof.
  apply (use_resolves_outside_chest None
           (sample "Dungeon Cell" ["Crowbar"; "Cell Key"] ["2"]) "Cell Key").
  - reflexivity.
  - intros [H _]. discriminate H.
Defined.

(** C2, as stated, fails at the strongbox: in the Armory of [create_world]
    the Crowbar is the required item, the use clears the obstacle, and the
    Crowbar, which is neither "Cell Key" nor "Iron Key", leaves the
    inventory. *)
Lemma use_resolves_fails_at_chest :
  uses None (sample "Armory" ["Crowbar"] ["1"]) "Crowbar" ∧
  ¬ use_resolves None (sample "Armory" ["Crowbar"] ["1"]) "Crowbar".
Proof.
  split; [reflexivity|]. intros H.
  destruct (H armory_room
              (mkObstacle "chest" "Crowbar" "The strongbox is jammed shut!" None)
              eq_refl eq_refl) as [_ Hinv].
  destruct (Hinv eq_refl) as [_ Hkeep].
  assert (Hnk : "Crowbar" ∉ ["Cell Key"; "Iron Key"]).
  { intros Hk. apply contains_true in Hk. discriminate Hk. }
  specialize (Hkeep Hnk). vm_compute in Hkeep. discriminate Hkeep.
Qed.

(** ** Taking an item *)

(** Every room of [create_world] names each of its items once. *)
Lemma create_world_names_once (k : string) (r : Room) (item : string) :
  create_world !! k = Some r → item ∈ items r → named_once item (items r).
Proof.
  intros Hr Hin. unfold create_world in Hr.
  apply elem_of_list_to_map_2 in Hr.
  repeat (apply elem_of_cons in Hr as [Hr|Hr];
          [injection Hr as -> ->; simpl in Hin;
           repeat (apply elem_of_cons in Hin as [->|Hin]; [reflexivity|]);
           by apply elem_of_nil in Hin|]).
  by apply elem_of_nil in Hr.
Qed.

Lemma run_handle_take (g : Game) (r : Room) (item : string) :
  takes g r item →
  ∃ out rest,
    handle_take g =
    if Z.ltb (Z.of_nat (length (inventory (player g)))) (max_inventory (player g))
    then
      (Return tt,
       mkGame (set_inventory (inventory (player g) ++ [item]) (player g))
         (<[location (player g) := set_items (list_remove item (items r)) r]> (world g))
         rest (stdout g ++ out))
    else
      (Raise (InventoryFullError
                ("Inventory full! (Max " +:+ pretty (max_inventory (player g))
                 +:+ " items)")),
       mkGame (player g) (world g) rest (stdout g ++ out)).
Proof.
  intros (Hr & line & rest & choice & Hin & Hint & Hc & Hidx).
  assert (Hne : items r ≠ []).
  { intros E. rewrite E in Hidx. unfold py_index in Hidx. simpl in Hidx.
    repeat case_match; done. }
  unfold handle_take, add_item, mbind, mret, M_bind, M_ret. simpl.
  rewrite (run_get_room_Some _ r g Hr).
  destruct (items r) as [|x xs] eqn:Eitems; [done|]. simpl.
  run_numbered. unfold input. simpl. rewrite Hin. simpl.
  rewrite Hint. apply Z.eqb_neq in Hc. rewrite Hc. simpl. rewrite Hidx. simpl.
  destruct (Z.ltb _ _); simpl.
  - rewrite (run_update_room _ _ r) by done. simpl. rewrite Eitems.
    destruct (String.eqb item "Book"); [|destruct (String.eqb item "Note")];
      rewrite ?run_print; unfold with_stdout; simpl; rewrite <- ?app_assoc;
      eexists _, rest; reflexivity.
  - rewrite <- ?app_assoc. eexists _, rest. reflexivity.
Qed.




(** ** Numeric selections *)

(** C7.  The code at an input the claim covers: "-1" is a number, neither 0
    nor a 1-based index into a list of two, and yet [handle_take] picks up
    the "Torch" in the Kitchen and the free-standing use applies the
    "Crowbar" in the Armory; neither prints "Invalid choice." and both
    change the inventory and the room. *)
Theorem negative_choice_is_accepted :
  py_int "-1" = Some (-1) ∧
  handle_take (sample "Kitchen" [] ["-1"]) =
    (Return tt,
     mkGame (mkPlayer "Ann" ["Torch"] "Kitchen" 4)
       (<["Kitchen" := set_items ["Food"] kitchen_room]> create_world)
       []
       [nl +:+ "What would you like to take?"; "1. Torch"; "2. Food";
        nl +:+ "Enter number (0 to cancel): ";
        nl +:+ "You picked up the Torch."]) ∧
  handle_use_item None (sample "Armory" ["Crowbar"; "Rope"] ["-1"]) =
    (Return tt,
     mkGame (mkPlayer "Ann" ["Rope"] "Armory" 4)
       (<["Armory" := opened armory_room]> create_world)
       []
       [nl +:+ "Which item would you like to use?"; "1. Crowbar"; "2. Rope";
        nl +:+ "Enter number (0 to cancel): ";
        nl +:+ "You pry open the strongbox with the crowbar!";
        "You found a Cell Key and an Iron Key inside!"]).
Proof. repeat split; vm_compute; reflexivity. Qed.

(** Where the selection is rejected: above the length of the list, and at or
    below minus that length. *)
Lemma py_index_None {A : Type} (l : list A) (i : Z) :
  py_index l i = None ↔ (i < - Z.of_nat (length l) ∨ Z.of_nat (length l) ≤ i)%Z.
Proof.
  unfold py_index.
  destruct (Z.leb_spec 0 i), (Z.ltb_spec i (Z.of_nat (length l))); simpl;
    rewrite ?lookup_ge_None; try (split; intros; first [done | lia]).
  all: destruct (Z.leb_spec (- Z.of_nat (length l)) i), (Z.ltb_spec i 0); simpl;
    rewrite ?lookup_ge_None; split; intros; first [done | lia].
Qed.

(** The selections that are rejected, and how: a number whose index falls
    outside the list in both directions is answered with "Invalid choice."
    and nothing but the console changes. *)
Lemma take_rejects_out_of_range
    (g : Game) (r : Room) (line : string) (rest : list string) (choice : Z) :
  world g !! location (player g) = Some r →
  items r ≠ [] →
  stdin g = line :: rest →
  py_int line = Some choice →
  choice ≠ 0 →
  (choice - 1 < - Z.of_nat (length (items r))
   ∨ Z.of_nat (length (items r)) ≤ choice - 1)%Z →
  ∃ out,
    handle_take g =
    (Return tt,
     mkGame (player g) (world g) rest
       (stdout g ++ out ++ [nl +:+ "Invalid choice."])).
Proof.
  intros Hr Hne Hin Hint Hc Hout. apply py_index_None in Hout.
  unfold handle_take, mbind, mret, M_bind, M_ret. simpl.
  rewrite (run_get_room_Some _ r g Hr).
  destruct (items r) as [|x xs] eqn:Ei; [done|]. simpl.
  run_numbered. unfold input. simpl. rewrite Hin. simpl. rewrite Hint.
  apply Z.eqb_neq in Hc. rewrite Hc, Hout. simpl.
  exists ([nl +:+ "What would you like to take?"] ++ out
          ++ [nl +:+ "Enter number (0 to cancel): "]).
  rewrite ?run_print. unfold with_stdout. simpl. by rewrite <- !app_assoc.
Qed.

Lemma use_rejects_out_of_range
    (g : Game) (line : string) (rest : list string) (choice : Z) :
  inventory (player g) ≠ [] →
  stdin g = line :: rest →
  py_int line = Some choice →
  choice ≠ 0 →
  (choice - 1 < - Z.of_nat (length (inventory (player g)))
   ∨ Z.of_nat (length (inventory (player g))) ≤ choice - 1)%Z →
  ∃ out,
    handle_use_item None g =
    (Return tt,
     mkGame (player g) (world g) rest
       (stdout g ++ out ++ [nl +:+ "Invalid choice."])).
Proof.
  intros Hne Hin Hint Hc Hout. apply py_index_None in Hout.
  unfold handle_use_item, choose_item, has_item, mbind, mret, M_bind, M_ret. simpl.
  destruct (inventory (player g)) as [|x xs] eqn:Ei; [done|]. simpl.
  run_numbered. unfold input. simpl. rewrite Hin. simpl. rewrite Hint.
  apply Z.eqb_neq in Hc. rewrite Hc, Hout. simpl.
  exists ([nl +:+ "Which item would you like to use?"] ++ out
          ++ [nl +:+ "Enter number (0 to cancel): "]).
  rewrite ?run_print. unfold with_stdout. simpl. by rewrite <- !app_assoc.
Qed.

(** ** Moving *)

Lemma obstructs_blocked (r : Room) (attempted : string) :
  (∃ ob, obstacle r = Some ob ∧ obstructs ob attempted = true) ↔ blocked r attempted.
Proof.
  unfold blocked, obstructs. split; intros (ob & Ho & H); exists ob; split; auto.
  - destruct (direction ob) as [d|]; [|by right].
    apply eqb_true in H. left. by subst.
  - destruct H as [->| ->]; [apply String.eqb_refl|done].
Qed.

Lemma not_blocked (r : Room) (attempted : string) (ob : Obstacle) :
  ¬ blocked r attempted → obstacle r = Some ob → obstructs ob attempted = false.
Proof.
  intros Hn Ho. destruct (obstructs ob attempted) eqn:E; [|done].
  exfalso. apply Hn, obstructs_blocked. eauto.
Qed.

Lemma blocked_or_free (r : Room) (attempted : string) :
  blocked r attempted ∨ ¬ blocked r attempted.
Proof.
  destruct (obstacle r) as [ob|] eqn:Ho.
  - destruct (obstructs ob attempted) eqn:E.
    + left. apply obstructs_blocked. eauto.
    + right. intros Hb. apply obstructs_blocked in Hb as (ob' & Ho' & Hb).
      congruence.
  - right. intros (ob & Ho' & _). congruence.
Qed.

Lemma run_movement_free (g : Game) (current_room attempted : string) (r : Room) :
  world g !! current_room = Some r →
  ¬ blocked r attempted →
  handle_movement_execution current_room attempted g =
  match dict_get (exits r) attempted with
  | Some new_location =>
      (Return tt,
       mkGame (set_location new_location (player g)) (world g) (stdin g)
         (stdout g ++ [nl +:+ "You move " +:+ attempted +:+ " to the "
                       +:+ new_location +:+ "..."]))
  | None => (Raise (KeyError attempted), g)
  end.
Proof.
  intros Hr Hn. unfold handle_movement_execution. rewrite run_bind.
  rewrite (run_get_room_Some _ r g Hr). cbv zeta.
  destruct (obstacle r) as [ob|] eqn:Ho.
  - rewrite (not_blocked r attempted ob Hn Ho).
    by destruct (dict_get (exits r) attempted).
  - by destruct (dict_get (exits r) attempted).
Qed.

Lemma run_movement_blocked
    (g : Game) (current_room attempted : string) (r : Room) (ob : Obstacle) :
  world g !! current_room = Some r →
  obstacle r = Some ob →
  obstructs ob attempted = true →
  handle_movement_execution current_room attempted g =
  let out := stdout g ++ [nl +:+ "! " +:+ message ob;
                          "Would you like to try using an item? (y/n) "] in
  match stdin g with
  | [] => (Raise EOFError, mkGame (player g) (world g) [] out)
  | answer :: rest =>
      if String.eqb (lower answer) "y"
      then handle_use_item (Some (required_item ob))
             (mkGame (player g) (world g) rest out)
      else (Return tt, mkGame (player g) (world g) rest out)
  end.
Proof.
  intros Hr Ho Hb. unfold handle_movement_execution. rewrite run_bind.
  rewrite (run_get_room_Some _ r g Hr). cbv zeta. rewrite Ho, Hb.
  unfold input, mbind, mret, M_bind, M_ret. simpl.
  destruct (stdin g) as [|answer rest]; simpl; rewrite <- app_assoc; [done|].
  by destruct (String.eqb (lower answer) "y").
Qed.

Lemma first_printed (out : list string) (s : string) (rest more : list string) :
  ((out ++ s :: rest) ++ more) !! length out = Some s.
Proof.
  rewrite <- app_assoc. rewrite lookup_app_r by lia.
  by rewrite Nat.sub_diag.
Qed.

Lemma prefix_first_printed (out : list string) (s : string) (rest l : list string) :
  (out ++ s :: rest) `prefix_of` l → l !! length out = Some s.
Proof. intros [more ->]. apply first_printed. Qed.

(** A blocked move prints the obstacle's message first and keeps the player
    in place, whatever is typed next. *)
Lemma run_blocked_effect (g : Game) (current_room attempted : string) (r : Room) :
  world g !! current_room = Some r →
  blocked r attempted →
  location (player (handle_movement_execution current_room attempted g).2)
  = location (player g) ∧
  ∃ ob, obstacle r = Some ob ∧
        stdout (handle_movement_execution current_room attempted g).2
          !! length (stdout g) = Some (nl +:+ "! " +:+ message ob).
Proof.
  intros Hr Hb. apply obstructs_blocked in Hb as (ob & Ho & Hb).
  rewrite (run_movement_blocked g _ _ r ob Hr Ho Hb). cbv zeta.
  destruct (stdin g) as [|answer rest].
  { split; [done|]. exists ob. split; [done|]. simpl.
    by apply prefix_first_printed with
      (rest := ["Would you like to try using an item? (y/n) "]). }
  destruct (String.eqb (lower answer) "y").
  2: { split; [done|]. exists ob. split; [done|]. simpl.
       by apply prefix_first_printed with
         (rest := ["Would you like to try using an item? (y/n) "]). }
  set (g1 := mkGame _ _ _ _).
  split.
  - apply (stays_handle_use_item _ g1).
  - exists ob. split; [done|].
    apply prefix_first_printed with
      (rest := ["Would you like to try using an item? (y/n) "]).
    apply (ev_stdout _ _ (evolves_handle_use_item _ g1)).
Qed.



(** ** The move command *)

Lemma run_handle_move_pick (g : Game) (r : Room) (line attempted : string) :
  picks g r line attempted →
  ∃ out rest,
    stdin g = line :: rest ∧
    handle_move g =
    handle_movement_execution (location (player g)) attempted
      (mkGame (player g) (world g) rest (stdout g ++ out)).
Proof.
  intros (Hr & rest & choice & Hin & Hint & Hc & Hrange & Hkey).
  unfold handle_move, py_index, mbind, mret, M_bind, M_ret. simpl.
  rewrite (run_get_room_Some _ r g Hr).
  destruct (keys (exits r)) as [|k ks] eqn:Ek; [done|].
  assert (Hin_range :
            (Z.leb 0 (choice - 1)
             && Z.ltb (choice - 1) (Z.of_nat (length (k :: ks))))%bool = true).
  { apply andb_true_intro. split; [apply Z.leb_le|apply Z.ltb_lt]; lia. }
  run_numbered. unfold input. simpl. rewrite Hin. simpl. rewrite Hint.
  apply Z.eqb_neq in Hc. rewrite Hc.
  simpl in Hin_range. rewrite !Hin_range. simpl. rewrite Hkey.
  rewrite <- !app_assoc. by eexists _, rest.
Qed.

Lemma run_choose_hinted (g : Game) (required : string) :
  truthy required = true →
  required ∈ inventory (player g) →
  choose_item (Some required) g = (Return (Some required), g).
Proof.
  intros Ht Hin. unfold choose_item, has_item, mbind, mret, M_bind, M_ret. simpl.
  destruct (inventory (player g)) as [|x xs] eqn:E.
  { by apply elem_of_nil in Hin. }
  rewrite <- E in Hin. apply contains_true in Hin. simpl. by rewrite Ht, Hin.
Qed.

Lemma chest_applies_or_not (g : Game) (item : string) (r : Room) :
  world g !! location (player g) = Some r →
  chest_applies g item ∨ ¬ chest_applies g item.
Proof.
  intros Hr. unfold chest_applies.
  destruct (decide (location (player g) = "Armory")) as [Hl|Hl]; [|right; tauto].
  destruct (decide (item = "Crowbar")) as [Hi|Hi]; [|right; tauto].
  rewrite Hl in Hr.
  destruct (obstacle r) as [ob|] eqn:Ho.
  - destruct (decide (type ob = "chest")) as [Ht|Ht].
    + left. eauto 10.
    + right. intros (_ & _ & a & ob' & Ha & Ho' & Ht'). congruence.
  - right. intros (_ & _ & a & ob' & Ha & Ho' & Ht'). congruence.
Qed.

(** A use of the required item, by either branch, clears the obstacle of the
    current room, touches neither its exits nor the player's location. *)
Lemma run_apply_required (g : Game) (r : Room) (ob : Obstacle) :
  world g !! location (player g) = Some r →
  obstacle r = Some ob →
  required_item ob ∈ inventory (player g) →
  ∃ p' r' out,
    apply_item (required_item ob) g =
    (Return tt,
     mkGame p' (<[location (player g) := r']> (world g)) (stdin g) (stdout g ++ out)) ∧
    location p' = location (player g) ∧
    obstacle r' = None ∧ exits r' = exits r.
Proof.
  intros Hr Ho Hin.
  destruct (chest_applies_or_not g (required_item ob) r Hr) as [Hc|Hn].
  - destruct Hc as (Hl & Hi & a & ob' & Ha & Ho' & Ht).
    assert (a = r) as -> by (rewrite Hl in Hr; congruence).
    rewrite Hi in *. rewrite (run_apply_item_chest g r ob') by done.
    rewrite Hl. eexists _, (opened r), _. split; [reflexivity|].
    repeat split; simpl; auto.
  - destruct (run_apply_item_match g _ r ob Hr Ho Hn eq_refl Hin) as [out ->].
    eexists _, (set_obstacle None r), out. split; [reflexivity|].
    split; [|done]. by destruct (contains _ _).
Qed.

(** C10.  A move command that selects a blocked direction ends with the
    player where they were.  This includes the case where the player answers
    yes, holds the required item and the obstacle is cleared by that very
    command: the command returns with the obstacle gone and the location
    unchanged, and it is a further move command with the same selection that
    takes the player through the exit. *)
Theorem blocked_move_keeps_location
    (g : Game) (r : Room) (line attempted : string) :
  picks g r line attempted →
  blocked r attempted →
  location (player (handle_move g).2) = location (player g) ∧
  ∀ ob answer rest,
    obstacle r = Some ob →
    stdin g = line :: answer :: rest →
    lower answer = "y" →
    truthy (required_item ob) = true →
    required_item ob ∈ inventory (player g) →
    let g' := (handle_move g).2 in
    (handle_move g).1 = Return tt ∧
    obstacle_cleared g' ∧
    location (player g') = location (player g) ∧
    ∀ rest' new_location,
      dict_get (exits r) attempted = Some new_location →
      location (player (handle_move (with_stdin (line :: rest') g')).2)
      = new_location.
Proof.
  intros Hp Hb.
  destruct (run_handle_move_pick g r line attempted Hp) as (out & rest0 & Hin & Hmove).
  destruct Hp as (Hr & Hp).
  split.
  { rewrite Hmove.
    by destruct (run_blocked_effect (mkGame (player g) (world g) rest0 (stdout g ++ out))
                   (location (player g)) attempted r Hr Hb) as [-> _]. }
  intros ob answer rest Ho Hin' Hy Ht Hhave g'.
  assert (rest0 = answer :: rest) as -> by congruence.
  assert (Hob : obstructs ob attempted = true).
  { apply obstructs_blocked in Hb as (ob' & Ho' & Hb). congruence. }
  unfold g'. rewrite Hmove.
  rewrite (run_movement_blocked
             (mkGame (player g) (world g) (answer :: rest) (stdout g ++ out))
             _ _ r ob Hr Ho Hob).
  simpl. rewrite Hy. simpl.
  set (g2 := mkGame _ _ _ _).
  unfold handle_use_item. rewrite run_bind, (run_choose_hinted g2) by done.
  destruct (run_apply_required g2 r ob Hr Ho Hhave)
    as (p' & r' & out' & -> & Hl' & Ho' & He').
  simpl player in *. simpl world in *. simpl.
  split; [done|]. split; [|split; [done|]].
  - exists r'. simpl. rewrite Hl'. by rewrite lookup_insert_eq.
  - intros rest' new_location Hexit.
    match goal with |- context [handle_move ?G] => set (g3 := G) end.
    assert (Hp3 : picks g3 r' line attempted).
    { destruct Hp as (rest1 & choice & Hin1 & Hint & Hc & Hrange & Hkey).
      subst g3. split.
      - simpl. rewrite Hl'. by rewrite lookup_insert_eq.
      - exists rest', choice. rewrite He'.
        split; [done|]. split; [done|]. split; [done|]. split; [lia|done]. }
    destruct (run_handle_move_pick g3 r' line attempted Hp3)
      as (out3 & rest3 & Hin3 & ->).
    destruct Hp3 as (Hr3 & _).
    match goal with
    | |- context [handle_movement_execution ?k ?d ?G] =>
        rewrite (run_movement_free G k d r' Hr3)
    end.
    + by rewrite He', Hexit.
    + intros (ob3 & Ho3 & _). congruence.
Qed.

Lemma blocked_move_keeps_location_witness :
  let g := sample "Guard Room" ["Torch"] ["2"; "y"] in
  location (player (handle_move g).2) = location (player g) ∧
  ∀ ob answer rest,
    obstacle guard_room = Some ob →
    stdin g = "2" :: answer :: rest →
    lower answer = "y" →
    truthy (required_item ob) = true →
    required_item ob ∈ inventory (player g) →
    let g' := (handle_move g).2 in
    (handle_move g).1 = Return tt ∧
    obstacle_cleared g' ∧
    location (player g') = location (player g) ∧
    ∀ rest' new_location,
      dict_get (exits guard_room) "forward" = Some new_location →
      location (player (handle_move (with_stdin ("2" :: rest') g')).2)
      = new_location.
Proof.
  apply (blocked_move_keeps_location (sample "Guard Room" ["Torch"] ["2"; "y"])
           guard_room "2" "forward").
  - split; [reflexivity|]. exists ["y"], 2.
    split; [reflexivity|]. split; [reflexivity|]. split; [discriminate|].
    split; [simpl; lia|reflexivity].
  - exists (mkObstacle "guard" "Torch" "The guard blocks your path!" (Some "forward")).
    split; [reflexivity|]. left. reflexivity.
Defined.

(** ** A game started by [main] never leaves the cell *)

#[global] Instance same_play_preorder : PreOrder same_play.
Proof.
  split.
  - by intros g.
  - intros g1 g2 g3 [P1 W1] [P2 W2]. split; congruence.
Qed.

Lemma same_play_print (s : string) : preserves same_play (print s).
Proof. by intros g. Qed.

Lemma same_play_input (s : string) : preserves same_play (input s).
Proof. intros g. unfold input. by destruct (stdin g). Qed.

#[global] Hint Resolve same_play_print same_play_input : game.

Lemma same_play_show_inventory : preserves same_play show_inventory.
Proof. apply preserves_show_inventory; auto with game typeclass_instances. Qed.

Lemma same_play_choose_item (required_item : option string) :
  preserves same_play (choose_item required_item).
Proof. apply preserves_choose_item; auto with game typeclass_instances. Qed.

Lemma same_play_print_header (text : string) : preserves same_play (print_header text).
Proof. apply preserves_print_header; auto with game typeclass_instances. Qed.

Lemma special_same_play (g : Game) :
  location (player g) ≠ "Treasury" →
  same_play g (handle_special_interactions g).2.
Proof.
  intros Hl. apply eqb_false in Hl.
  unfold handle_special_interactions, has_item, get_room, get_world, raise,
    print, mbind, mret, M_bind, M_ret.
  simpl. rewrite Hl.
  repeat (case_match; simplify_eq/=; try done).
Qed.

Lemma look_same_play (g : Game) :
  location (player g) ≠ "Treasury" → same_play g (handle_look g).2.
Proof.
  intros Hl. unfold handle_look. rewrite run_bind. simpl. rewrite run_bind.
  destruct (world g !! location (player g)) as [r|] eqn:Hr.
  - rewrite (run_get_room_Some _ r g Hr), run_bind, run_print.
    destruct (run_look_listing r handle_special_interactions
                (with_stdout (stdout g ++ [nl +:+ description r]) g)) as [out ->].
    by apply (special_same_play (with_stdout _ (with_stdout _ g))).
  - by rewrite (run_get_room_None _ g Hr).
Qed.

#[global] Instance stays_locked_preorder : PreOrder stays_locked.
Proof. split; unfold stays_locked; [by intros g | intros g1 g2 g3; auto]. Qed.

Lemma locked_in_same_play (g g' : Game) : same_play g g' → stays_locked g g'.
Proof.
  intros [Hp Hw] (n & H). exists n. by rewrite Hp, Hw.
Qed.

Lemma stays_locked_console {A : Type} (m : M A) :
  preserves same_play m → preserves stays_locked m.
Proof. intros H g. apply locked_in_same_play, H. Qed.

(** What a locked-in state looks like from the handlers. *)
Lemma locked_in_view (g : Game) :
  locked_in g →
  location (player g) = "Dungeon Cell" ∧
  max_inventory (player g) = default_max_inventory ∧
  ((inventory (player g) = [] ∧
    world g !! "Dungeon Cell" = Some cell_room) ∨
   (inventory (player g) = ["Crowbar"] ∧
    world g !! "Dungeon Cell" = Some cell_emptied)).
Proof.
  intros (n & [[-> ->]|[-> ->]]); simpl; repeat split; auto.
Qed.

(** The three commands that can change the play, and when they do. *)

Lemma take_cases (g : Game) :
  same_play g (handle_take g).2 ∨ ∃ r item, takes g r item.
Proof.
  unfold handle_take. rewrite run_bind. simpl. rewrite run_bind.
  destruct (world g !! location (player g)) as [r|] eqn:Hr.
  2: { left. by rewrite (run_get_room_None _ g Hr). }
  rewrite (run_get_room_Some _ r g Hr).
  destruct (items r) as [|x xs] eqn:Ei; [by left|].
  unfold input, mbind, mret, M_bind, M_ret. simpl. run_numbered.
  destruct (stdin g) as [|line rest] eqn:Hin; [by left|]. simpl.
  destruct (py_int line) as [choice|] eqn:Hint; [|by left]. simpl.
  destruct (Z.eqb_spec choice 0) as [|Hc]; [by left|]. simpl.
  destruct (py_index (x :: xs) (choice - 1)) as [item|] eqn:Hidx; [|by left].
  right. exists r, item. split; [done|]. exists line, rest, choice.
  by rewrite Ei.
Qed.

Lemma use_cases (hint : option string) (g : Game) :
  same_play g (handle_use_item hint g).2 ∨ ∃ item, uses hint g item.
Proof.
  unfold handle_use_item, uses. rewrite run_bind.
  pose proof (same_play_choose_item hint g) as Hs.
  destruct (choose_item hint g) as [[[item|]|e] g1]; simpl in *; eauto.
Qed.

Lemma move_cases (g : Game) :
  same_play g (handle_move g).2 ∨ ∃ r line attempted, picks g r line attempted.
Proof.
  unfold handle_move. rewrite run_bind. simpl. rewrite run_bind.
  destruct (world g !! location (player g)) as [r|] eqn:Hr.
  2: { left. by rewrite (run_get_room_None _ g Hr). }
  rewrite (run_get_room_Some _ r g Hr). cbv zeta.
  destruct (keys (exits r)) as [|k ks] eqn:Ek; [by left|].
  unfold input, py_index, mbind, mret, M_bind, M_ret. simpl. run_numbered.
  destruct (stdin g) as [|line rest] eqn:Hin; [by left|]. simpl.
  destruct (py_int line) as [choice|] eqn:Hint; [|by left]. simpl.
  destruct (Z.eqb_spec choice 0) as [|Hc]; [by left|]. simpl.
  destruct (Z.leb 0 (choice - 1)
            && Z.ltb (choice - 1) (Z.of_nat (S (length ks))))%bool eqn:Hrange;
    simpl; [|by left].
  apply andb_prop in Hrange as [Hlo Hhi].
  apply Z.leb_le in Hlo. apply Z.ltb_lt in Hhi.
  destruct ((k :: ks) !! Z.to_nat (choice - 1)) as [attempted|] eqn:Hk; [|by left].
  right. exists r, line, attempted. split; [done|]. exists rest, choice.
  rewrite Ek. repeat split; auto.
Qed.

Lemma elem_of_one (x y : string) : x ∈ [y] → x = y.
Proof. intros H. apply list_elem_of_singleton in H. exact H. Qed.

Lemma locked_look : preserves stays_locked handle_look.
Proof.
  intros g Hl. pose proof (locked_in_view g Hl) as (Hloc & _).
  apply (locked_in_same_play g); [|done].
  apply look_same_play. by rewrite Hloc.
Qed.

(** The only item within reach is the Crowbar, and there is room for it. *)
Lemma locked_take : preserves stays_locked handle_take.
Proof.
  intros g Hl.
  destruct (take_cases g) as [Hs|(r & item & Ht)].
  { by apply (locked_in_same_play g). }
  destruct (run_handle_take g r item Ht) as (out & rest & ->).
  destruct Ht as (Hr & line & rest0 & choice & _ & _ & _ & Hidx).
  apply py_index_elem in Hidx.
  destruct Hl as (n & [[Hp Hw]|[Hp Hw]]); rewrite Hp, Hw in *; simpl in Hr.
  - injection Hr as <-. apply elem_of_one in Hidx as ->.
    simpl. exists n. right. done.
  - rewrite lookup_insert_eq in Hr. injection Hr as <-.
    by apply elem_of_nil in Hidx.
Qed.

(** The Crowbar opens nothing in the cell. *)
Lemma locked_use (hint : option string) : preserves stays_locked (handle_use_item hint).
Proof.
  intros g Hl.
  destruct (use_cases hint g) as [Hs|(item & Hu)].
  { by apply (locked_in_same_play g). }
  apply (locked_in_same_play g); [|done].
  destruct (choose_item_frame hint g) as (_ & _ & _ & Hin).
  specialize (Hin item Hu).
  destruct (locked_in_view g Hl) as (Hloc & _ & [[Hi Hw]|[Hi Hw]]);
    rewrite Hi in Hin.
  { by apply elem_of_nil in Hin. }
  apply elem_of_one in Hin as ->.
  rewrite <- Hloc in Hw.
  destruct (choose_item_frame hint g) as (Hp & Hw1 & _).
  rewrite (run_use_miss hint g "Crowbar" cell_emptied Hu Hw).
  - by split.
  - intros [H _]. rewrite Hloc in H. discriminate H.
  - intros ob [= <-]. discriminate.
Qed.

(** The only exit of the cell is the locked door, and the key is not in
    the cell. *)
Lemma locked_move : preserves stays_locked handle_move.
Proof.
  intros g Hl.
  destruct (move_cases g) as [Hs|(r & line & attempted & Hp)].
  { by apply (locked_in_same_play g). }
  destruct (run_handle_move_pick g r line attempted Hp) as (out & rest & Hin & ->).
  destruct Hp as (Hr & _ & choice & _ & _ & _ & _ & Hk).
  apply list_elem_of_lookup_2 in Hk.
  set (g1 := mkGame _ _ _ _).
  assert (Hl1 : locked_in g1) by (by apply (locked_in_same_play g)).
  assert (Hdoor : ∃ ob, obstacle r = Some ob ∧ obstructs ob attempted = true ∧
                        required_item ob = "Cell Key").
  { destruct (locked_in_view g Hl) as (Hloc & _ & [[_ Hw]|[_ Hw]]);
      rewrite Hloc, Hw in Hr; injection Hr as <-; simpl in Hk;
      apply elem_of_one in Hk as ->; eexists; repeat split. }
  destruct Hdoor as (ob & Ho & Hb & Hreq).
  rewrite (run_movement_blocked g1 _ _ r ob Hr Ho Hb). cbv zeta.
  destruct (stdin g1) as [|answer rest1].
  { by apply (locked_in_same_play g1). }
  destruct (String.eqb (lower answer) "y").
  2: { by apply (locked_in_same_play g1). }
  apply (locked_use _ (mkGame (player g1) (world g1) rest1 _)).
  by apply (locked_in_same_play g1).
Qed.

Lemma locked_print (s : string) : preserves stays_locked (print s).
Proof. apply stays_locked_console, same_play_print. Qed.

Lemma locked_input (s : string) : preserves stays_locked (input s).
Proof. apply stays_locked_console, same_play_input. Qed.

Lemma locked_ret {A : Type} (a : A) : preserves stays_locked (mret a).
Proof. apply preserves_ret. apply _. Qed.

Lemma locked_then {A B : Type} (m : M A) (f : A → M B) :
  preserves stays_locked m → (∀ a, preserves stays_locked (f a)) →
  preserves stays_locked (m ≫= f).
Proof. apply preserves_bind. apply _. Qed.

Lemma locked_dispatch (command : string) : preserves stays_locked (dispatch command).
Proof.
  unfold dispatch.
  repeat match goal with
    | |- preserves _ (if ?b then _ else _) => destruct b
    | |- preserves _ (_ ≫= _) => apply locked_then; [|intros ?]
    | |- preserves _ (mret _) => apply locked_ret
    | |- preserves _ (print _) => apply locked_print
    | |- preserves _ (raise _) => by apply preserves_raise, _
    end;
    first [ apply locked_look | apply locked_take | apply locked_move
          | apply locked_use
          | apply stays_locked_console, same_play_show_inventory ].
Qed.

Lemma locked_turn : preserves stays_locked turn.
Proof.
  unfold turn.
  repeat match goal with
    | |- preserves _ (if ?b then _ else _) => destruct b
    | |- preserves _ (_ ≫= _) => apply locked_then; [|intros ?]
    | |- preserves _ (try_GameError _ _) =>
        apply preserves_try; [apply _| |intros ?]
    | |- preserves _ (mret _) => apply locked_ret
    | |- preserves _ (print _) => apply locked_print
    | |- preserves _ (input _) => apply locked_input
    | |- preserves _ get_player => by apply preserves_get_player, _
    | |- preserves _ (dispatch _) => apply locked_dispatch
    | |- preserves _ (print_header _) =>
        apply stays_locked_console, same_play_print_header
    end.
Qed.

Lemma locked_main_loop (fuel : nat) : preserves stays_locked (main_loop fuel).
Proof.
  induction fuel as [|n IH]; simpl.
  - apply locked_ret.
  - apply locked_then; [apply locked_turn|]. intros [|]; [apply locked_ret|apply IH].
Qed.

Lemma initial_game_locked_in (player_name : string) (lines : list string) :
  locked_in (initial_game player_name lines).
Proof. exists player_name. by left. Qed.

(** C5.  The code on every input: whatever name and lines are typed and
    however long the loop runs, the game that [main] starts stays in one of
    two situations, both with the player in "Dungeon Cell".  The location is
    never "Exit Gate", so the victory branch of the loop is never taken. *)
Theorem player_never_leaves_cell
    (fuel : nat) (player_name : string) (lines : list string) :
  let g' := (main_loop fuel (initial_game player_name lines)).2 in
  locked_in g' ∧
  location (player g') = "Dungeon Cell" ∧
  location (player g') ≠ "Exit Gate".
Proof.
  intros g'.
  assert (Hl : locked_in g').
  { apply (locked_main_loop fuel (initial_game player_name lines)).
    apply initial_game_locked_in. }
  split; [done|].
  destruct (locked_in_view g' Hl) as (-> & _). by split.
Qed.

(** ** The loop ends on every finite input *)

(** A pass of the loop that asks for another one has read a line. *)
Lemma turn_consumes (g : Game) :
  match turn g with
  | (Return false, g') => (length (stdin g') < length (stdin g))%nat
  | _ => True
  end.
Proof.
  unfold turn. rewrite run_bind. simpl. rewrite run_bind, run_print.
  unfold try_GameError. rewrite run_bind. unfold input at 1. simpl.
  destruct (stdin g) as [|line rest] eqn:E; simpl; [done|].
  match goal with |- context [mbind ?f (dispatch (lower line)) ?G] =>
    set (k := mbind f (dispatch (lower line))); set (g2 := G) end.
  assert (Hk : preserves evolves k).
  { subst k. apply preserves_bind; [apply _|apply evolves_dispatch|].
    intros [|]; [by apply preserves_ret, _|].
    apply preserves_bind; [apply _|by apply preserves_get_player, _|].
    intros p. destruct (String.eqb (location p) "Exit Gate");
      [|by apply preserves_ret, _].
    apply preserves_bind; [apply _| |intros ?].
    - apply preserves_print_header; auto with game typeclass_instances.
    - apply preserves_bind; [apply _|apply evolves_print|].
      intros ?. by apply preserves_ret, _. }
  pose proof (ev_stdin _ _ (Hk g2)) as Hsuf. apply suffix_length in Hsuf.
  unfold g2 in Hsuf at 2. simpl in Hsuf.
  destruct (k g2) as [[[|]|e] g3]; simpl in *; [done|lia|].
  destruct (is_GameError e); simpl; [lia|done].
Qed.

(** With more fuel than input lines the loop is left by [break] or by an
    exception: the bound of the model is not what stops it. *)
Lemma main_loop_total (fuel : nat) (g : Game) :
  (length (stdin g) < fuel)%nat → (main_loop fuel g).1 ≠ Return false.
Proof.
  revert g. induction fuel as [|n IH]; intros g Hlen; [lia|].
  simpl. rewrite run_bind. pose proof (turn_consumes g) as Ht.
  destruct (turn g) as [[[|]|e] g1]; simpl; [done| |done].
  apply IH. lia.
Qed.

Lemma main_total (fuel : nat) (lines : list string) :
  (length lines ≤ fuel)%nat → ∀ g, main fuel lines ≠ OutOfFuel g.
Proof.
  intros Hlen g. unfold main. destruct lines as [|player_name rest]; [done|].
  pose proof (main_loop_total fuel (initial_game player_name rest)) as Ht.
  simpl in Hlen, Ht.
  destruct (main_loop fuel (initial_game player_name rest)) as [[[|]|e] g1];
    simpl in *; try done.
  exfalso. apply Ht; [lia|done].
Qed.

(** The same for [main] itself: when it stops, the player is in the cell. *)
Lemma main_never_reaches_exit (fuel : nat) (lines : list string) :
  match main fuel lines with
  | NoGame _ => True
  | Stopped g | OutOfFuel g => location (player g) = "Dungeon Cell"
  end.
Proof.
  unfold main. destruct lines as [|player_name rest]; [done|].
  pose proof (locked_main_loop fuel (initial_game player_name rest)
                (initial_game_locked_in player_name rest)) as Hl.
  destruct (main_loop fuel (initial_game player_name rest)) as [[[|]|e] g1];
    simpl in *; by destruct (locked_in_view _ Hl) as (-> & _).
Qed.

(** The opening of the documented walkthrough, typed at the console: the
    Crowbar is picked up, the door is tried, the player agrees to use an
    item, and the game answers that the Cell Key is missing; the input ends
    there and [main] stops with the player in the cell. *)
Example walkthrough_stops_at_the_door :
  ∃ g,
    main 6 ["Ann"; "take"; "1"; "move"; "1"; "y"] = Stopped g ∧
    player g = mkPlayer "Ann" ["Crowbar"] "Dungeon Cell" 4 ∧
    (nl +:+ "You need a Cell Key for this, but you don't have one.") ∈ stdout g ∧
    last (stdout g)
    = Some (nl +:+ "An unexpected error occurred: EOF when reading a line").
Proof.
  eexists. split; [vm_compute; reflexivity|].
  split; [reflexivity|]. split; [|reflexivity].
  apply contains_true. vm_compute. reflexivity.
Qed.

(** * Further properties of the handlers *)

(** ** The methods of [Player] *)

Lemma list_remove_present (x : string) (l : list string) :
  x ∈ l → x :: list_remove x l ≡ₚ l.
Proof.
  induction l as [|y l IH]; intros Hin; [by apply elem_of_nil in Hin|].
  simpl. destruct (String.eqb x y) eqn:E.
  - apply eqb_true in E. by subst.
  - apply eqb_false in E. apply elem_of_cons in Hin as [->|Hin]; [done|].
    rewrite Permutation_swap. by rewrite (IH Hin).
Qed.

Lemma list_remove_sublist (x : string) (l : list string) :
  list_remove x l `sublist_of` l.
Proof.
  induction l as [|y l IH]; [done|]. simpl.
  destruct (String.eqb x y); [by apply sublist_cons|by apply sublist_skip].
Qed.

Lemma list_remove_last (x : string) (l : list string) :
  x ∉ l → list_remove x (l ++ [x]) = l.
Proof.
  induction l as [|y l IH]; intros Hn; simpl.
  - by rewrite String.eqb_refl.
  - apply not_elem_of_cons in Hn as [Hne Hn].
    apply eqb_false in Hne. rewrite Hne. by rewrite (IH Hn).
Qed.

(** X1.  [add_item] followed by [remove_item] of the same item: when there
    is room the item is added and the player has it; removing it then
    succeeds and leaves the items the player had before, in the same order
    when the item was not already carried, and as a rearrangement
    otherwise (the copy that goes is the first one, not the one added). *)
Theorem add_then_remove (g : Game) (item : string) :
  has_room g →
  let g1 := (add_item item g).2 in
  let g2 := (remove_item item g1).2 in
  (add_item item g).1 = Return true ∧
  (has_item item g1).1 = Return true ∧
  (remove_item item g1).1 = Return true ∧
  inventory (player g2) ≡ₚ inventory (player g) ∧
  (item ∉ inventory (player g) → inventory (player g2) = inventory (player g)).
Proof.
  intros Hroom. unfold has_room in Hroom. apply Z.ltb_lt in Hroom.
  assert (Hin : contains item (inventory (player g) ++ [item]) = true).
  { apply contains_true, elem_of_app. right. by left. }
  unfold add_item, has_item, remove_item, mbind, mret, M_bind, M_ret. simpl.
  rewrite Hroom. simpl. rewrite Hin. simpl.
  repeat split.
  - apply (Permutation_cons_inv (a := item)).
    rewrite list_remove_present by (by apply contains_true).
    by rewrite Permutation_app_comm.
  - apply list_remove_last.
Qed.

Lemma add_then_remove_witness :
  let g := sample "Kitchen" ["Rope"; "Torch"] [] in
  let g1 := (add_item "Rope" g).2 in
  let g2 := (remove_item "Rope" g1).2 in
  (add_item "Rope" g).1 = Return true ∧
  (has_item "Rope" g1).1 = Return true ∧
  (remove_item "Rope" g1).1 = Return true ∧
  inventory (player g2) ≡ₚ inventory (player g) ∧
  ("Rope" ∉ inventory (player g) → inventory (player g2) = inventory (player g)).
Proof.
  apply (add_then_remove (sample "Kitchen" ["Rope"; "Torch"] []) "Rope").
  reflexivity.
Defined.

(** X2.  [remove_item] tells whether the item was carried.  If it was, the
    result is True and exactly one copy has gone, the others keeping their
    order; if it was not, the result is False and the game is untouched.
    Nothing is printed either way. *)
Theorem remove_item_takes_one_copy (g : Game) (item : string) :
  let result := remove_item item g in
  (item ∈ inventory (player g) →
   result.1 = Return true ∧
   item :: inventory (player result.2) ≡ₚ inventory (player g) ∧
   inventory (player result.2) `sublist_of` inventory (player g) ∧
   location (player result.2) = location (player g) ∧
   world result.2 = world g ∧ stdout result.2 = stdout g) ∧
  (item ∉ inventory (player g) → result = (Return false, g)).
Proof.
  unfold remove_item, mbind, mret, M_bind, M_ret. simpl. split; intros Hin.
  - pose proof Hin as Hc. apply contains_true in Hc. rewrite Hc. simpl.
    repeat split; [by apply list_remove_present|apply list_remove_sublist].
  - apply contains_false in Hin. by rewrite Hin.
Qed.

(** ** Menus: what happens at their edges *)

(** X3.  A menu with nothing to offer is not shown.  In a room without
    items the take command, with an empty bag the use command (free-standing
    or hinted), and in a room without exits the move command each print one
    line and return: no prompt is written, no line is read, and the player
    and the world are as before. *)
Theorem empty_menus_are_not_shown (g : Game) (r : Room) :
  world g !! location (player g) = Some r →
  (items r = [] →
   handle_take g =
   (Return tt, with_stdout (stdout g ++ [nl +:+ "There's nothing to take here."]) g)) ∧
  (inventory (player g) = [] →
   ∀ hint,
     handle_use_item hint g =
     (Return tt,
      with_stdout (stdout g ++ [nl +:+ "You don't have any items to use."]) g)) ∧
  (exits r = [] →
   handle_move g =
   (Return tt, with_stdout (stdout g ++ [nl +:+ "There are no exits from here."]) g)).
Proof.
  intros Hr. repeat match goal with |- _ ∧ _ => split end.
  - intros Hi. unfold handle_take, mbind, mret, M_bind, M_ret. simpl.
    by rewrite (run_get_room_Some _ r g Hr), Hi.
  - intros Hi hint.
    unfold handle_use_item, choose_item, mbind, mret, M_bind, M_ret.
    simpl. by rewrite Hi.
  - intros He. unfold handle_move, mbind, mret, M_bind, M_ret. simpl.
    by rewrite (run_get_room_Some _ r g Hr), He.
Qed.

Lemma empty_menus_are_not_shown_witness :
  let g := sample "Exit Gate" [] ["1"] in
  (items (mkRoom "Freedom awaits beyond this point!" [] [] None) = [] →
   handle_take g =
   (Return tt, with_stdout (stdout g ++ [nl +:+ "There's nothing to take here."]) g)) ∧
  (inventory (player g) = [] →
   ∀ hint,
     handle_use_item hint g =
     (Return tt,
      with_stdout (stdout g ++ [nl +:+ "You don't have any items to use."]) g)) ∧
  (exits (mkRoom "Freedom awaits beyond this point!" [] [] None) = [] →
   handle_move g =
   (Return tt, with_stdout (stdout g ++ [nl +:+ "There are no exits from here."]) g)).
Proof.
  apply (empty_menus_are_not_shown (sample "Exit Gate" [] ["1"])
           (mkRoom "Freedom awaits beyond this point!" [] [] None)).
  reflexivity.
Defined.

(** X4.  A hinted use whose item the player does not carry names the missing
    item and stops: the inventory menu is not shown, no line is read, and
    nothing is consumed or changed. *)
Theorem hinted_use_without_the_item (g : Game) (required : string) :
  inventory (player g) ≠ [] →
  truthy required = true →
  required ∉ inventory (player g) →
  handle_use_item (Some required) g =
  (Return tt,
   with_stdout
     (stdout g ++ [nl +:+ "You need a " +:+ required
                   +:+ " for this, but you don't have one."]) g).
Proof.
  intros Hne Ht Hn. apply contains_false in Hn.
  unfold handle_use_item, choose_item, has_item, mbind, mret, M_bind, M_ret.
  simpl. destruct (inventory (player g)) as [|x xs] eqn:E; [done|].
  simpl. rewrite <- E in Hn. by rewrite Ht, Hn.
Qed.

Lemma hinted_use_without_the_item_witness :
  handle_use_item (Some "Torch") (sample "Guard Room" ["Crowbar"] ["1"]) =
  (Return tt,
   with_stdout
     (stdout (sample "Guard Room" ["Crowbar"] ["1"])
      ++ [nl +:+ "You need a " +:+ "Torch" +:+ " for this, but you don't have one."])
     (sample "Guard Room" ["Crowbar"] ["1"])).
Proof.
  apply (hinted_use_without_the_item (sample "Guard Room" ["Crowbar"] ["1"]) "Torch").
  - discriminate.
  - reflexivity.
  - intros H. apply contains_true in H. discriminate H.
Defined.

(** The menu of [handle_move] is not empty when the room has exits. *)
Lemma keys_nil (d : list (string * string)) : keys d = [] ↔ d = [].
Proof. unfold keys. split; [apply fmap_nil_inv|by intros ->]. Qed.

(** X5.  A line that is not a number, typed at a numbered menu: the take and
    the free-standing use answer "Invalid choice." and return normally; the
    move raises InvalidCommandError("Please enter a valid number") instead.
    In all three the line is consumed and the player and the world are
    unchanged. *)
Theorem non_numeric_selection (g : Game) (line : string) (rest : list string) :
  stdin g = line :: rest →
  py_int line = None →
  (∀ r, world g !! location (player g) = Some r → items r ≠ [] →
        ∃ out, handle_take g =
               (Return tt,
                mkGame (player g) (world g) rest
                  (stdout g ++ out ++ [nl +:+ "Invalid choice."]))) ∧
  (inventory (player g) ≠ [] →
   ∃ out, handle_use_item None g =
          (Return tt,
           mkGame (player g) (world g) rest
             (stdout g ++ out ++ [nl +:+ "Invalid choice."]))) ∧
  (∀ r, world g !! location (player g) = Some r → exits r ≠ [] →
        ∃ out, handle_move g =
               (Raise (InvalidCommandError "Please enter a valid number"),
                mkGame (player g) (world g) rest (stdout g ++ out))).
Proof.
  intros Hin Hint. repeat match goal with |- _ ∧ _ => split end.
  - intros r Hr Hne.
    unfold handle_take, mbind, mret, M_bind, M_ret. simpl.
    rewrite (run_get_room_Some _ r g Hr).
    destruct (items r) as [|x xs] eqn:Ei; [done|]. simpl.
    run_numbered. unfold input. simpl. rewrite Hin. simpl. rewrite Hint.
    rewrite ?run_print. unfold with_stdout. simpl.
    exists ([nl +:+ "What would you like to take?"] ++ out
            ++ [nl +:+ "Enter number (0 to cancel): "]).
    by rewrite <- !app_assoc.
  - intros Hne.
    unfold handle_use_item, choose_item, has_item, mbind, mret, M_bind, M_ret.
    simpl. destruct (inventory (player g)) as [|x xs] eqn:Ei; [done|]. simpl.
    run_numbered. unfold input. simpl. rewrite Hin. simpl. rewrite Hint.
    rewrite ?run_print. unfold with_stdout. simpl.
    exists ([nl +:+ "Which item would you like to use?"] ++ out
            ++ [nl +:+ "Enter number (0 to cancel): "]).
    by rewrite <- !app_assoc.
  - intros r Hr Hne.
    unfold handle_move, mbind, mret, M_bind, M_ret. simpl.
    rewrite (run_get_room_Some _ r g Hr).
    destruct (keys (exits r)) as [|k ks] eqn:Ek; [by apply keys_nil in Ek|].
    simpl. run_numbered. unfold input. simpl. rewrite Hin. simpl. rewrite Hint.
    exists ([nl +:+ "Available directions:"] ++ out
            ++ [nl +:+ "Enter number (0 to cancel): "]).
    unfold raise. by rewrite <- !app_assoc.
Qed.

Lemma non_numeric_selection_witness :
  let g := sample "Kitchen" ["Crowbar"] ["torch"; "look"] in
  (∀ r, world g !! location (player g) = Some r → items r ≠ [] →
        ∃ out, handle_take g =
               (Return tt,
                mkGame (player g) (world g) ["look"]
                  (stdout g ++ out ++ [nl +:+ "Invalid choice."]))) ∧
  (inventory (player g) ≠ [] →
   ∃ out, handle_use_item None g =
          (Return tt,
           mkGame (player g) (world g) ["look"]
             (stdout g ++ out ++ [nl +:+ "Invalid choice."]))) ∧
  (∀ r, world g !! location (player g) = Some r → exits r ≠ [] →
        ∃ out, handle_move g =
               (Raise (InvalidCommandError "Please enter a valid number"),
                mkGame (player g) (world g) ["look"] (stdout g ++ out))).
Proof.
  apply (non_numeric_selection (sample "Kitchen" ["Crowbar"] ["torch"; "look"])
           "torch" ["look"]); reflexivity.
Defined.

(** X6.  A number other than 0 that is not the 1-based index of an exit,
    negative numbers included, makes the move raise
    InvalidCommandError("Invalid direction choice"): the line is consumed,
    the player does not move and the world is unchanged. *)
Theorem move_out_of_range
    (g : Game) (r : Room) (line : string) (rest : list string) (choice : Z) :
  world g !! location (player g) = Some r →
  exits r ≠ [] →
  stdin g = line :: rest →
  py_int line = Some choice →
  choice ≠ 0 →
  ¬ (1 ≤ choice ≤ Z.of_nat (length (exits r)))%Z →
  ∃ out,
    handle_move g =
    (Raise (InvalidCommandError "Invalid direction choice"),
     mkGame (player g) (world g) rest (stdout g ++ out)).
Proof.
  intros Hr Hne Hin Hint Hc Hout.
  unfold handle_move, mbind, mret, M_bind, M_ret. simpl.
  rewrite (run_get_room_Some _ r g Hr).
  assert (Hlen : length (keys (exits r)) = length (exits r))
    by (unfold keys; apply length_fmap).
  destruct (keys (exits r)) as [|k ks] eqn:Ek; [by apply keys_nil in Ek|].
  assert (Hrange :
            (Z.leb 0 (choice - 1)
             && Z.ltb (choice - 1) (Z.of_nat (length (k :: ks))))%bool = false).
  { rewrite Hlen. apply andb_false_iff.
    destruct (Z.leb_spec 0 (choice - 1)); [right|by left].
    apply Z.ltb_ge. lia. }
  simpl. run_numbered. unfold input. simpl. rewrite Hin. simpl. rewrite Hint.
  apply Z.eqb_neq in Hc. rewrite Hc. simpl in Hrange. rewrite Hrange. simpl.
  exists ([nl +:+ "Available directions:"] ++ out
          ++ [nl +:+ "Enter number (0 to cancel): "]).
  unfold raise. by rewrite <- !app_assoc.
Qed.

Lemma move_out_of_range_witness :
  ∃ out,
    handle_move (sample "Kitchen" [] ["-1"]) =
    (Raise (InvalidCommandError "Invalid direction choice"),
     mkGame (player (sample "Kitchen" [] ["-1"])) (world (sample "Kitchen" [] ["-1"]))
       [] (stdout (sample "Kitchen" [] ["-1"]) ++ out)).
Proof.
  apply (move_out_of_range (sample "Kitchen" [] ["-1"]) kitchen_room "-1" [] (-1)).
  - reflexivity.
  - discriminate.
  - reflexivity.
  - reflexivity.
  - discriminate.
  - simpl. lia.
Defined.

(** X7.  The answer 0 cancels each of the three menus: the handler returns
    normally after the prompt, having consumed that one line, with the
    player and the world unchanged. *)
Theorem zero_cancels (g : Game) (line : string) (rest : list string) :
  stdin g = line :: rest →
  py_int line = Some 0 →
  (∀ r, world g !! location (player g) = Some r → items r ≠ [] →
        ∃ out, handle_take g =
               (Return tt,
                mkGame (player g) (world g) rest
                  (stdout g ++ out ++ [nl +:+ "Enter number (0 to cancel): "]))) ∧
  (inventory (player g) ≠ [] →
   ∃ out, handle_use_item None g =
          (Return tt,
           mkGame (player g) (world g) rest
             (stdout g ++ out ++ [nl +:+ "Enter number (0 to cancel): "]))) ∧
  (∀ r, world g !! location (player g) = Some r → exits r ≠ [] →
        ∃ out, handle_move g =
               (Return tt,
                mkGame (player g) (world g) rest
                  (stdout g ++ out ++ [nl +:+ "Enter number (0 to cancel): "]))).
Proof.
  intros Hin Hint. repeat match goal with |- _ ∧ _ => split end.
  - intros r Hr Hne.
    unfold handle_take, mbind, mret, M_bind, M_ret. simpl.
    rewrite (run_get_room_Some _ r g Hr).
    destruct (items r) as [|x xs] eqn:Ei; [done|]. simpl.
    run_numbered. unfold input. simpl. rewrite Hin. simpl. rewrite Hint. simpl.
    exists ([nl +:+ "What would you like to take?"] ++ out).
    by rewrite <- !app_assoc.
  - intros Hne.
    unfold handle_use_item, choose_item, has_item, mbind, mret, M_bind, M_ret.
    simpl. destruct (inventory (player g)) as [|x xs] eqn:Ei; [done|]. simpl.
    run_numbered. unfold input. simpl. rewrite Hin. simpl. rewrite Hint. simpl.
    exists ([nl +:+ "Which item would you like to use?"] ++ out).
    by rewrite <- !app_assoc.
  - intros r Hr Hne.
    unfold handle_move, mbind, mret, M_bind, M_ret. simpl.
    rewrite (run_get_room_Some _ r g Hr).
    destruct (keys (exits r)) as [|k ks] eqn:Ek; [by apply keys_nil in Ek|].
    simpl. run_numbered. unfold input. simpl. rewrite Hin. simpl. rewrite Hint.
    simpl.
    exists ([nl +:+ "Available directions:"] ++ out).
    by rewrite <- !app_assoc.
Qed.

Lemma zero_cancels_witness :
  let g := sample "Kitchen" ["Crowbar"] ["0"; "look"] in
  (∀ r, world g !! location (player g) = Some r → items r ≠ [] →
        ∃ out, handle_take g =
               (Return tt,
                mkGame (player g) (world g) ["look"]
                  (stdout g ++ out ++ [nl +:+ "Enter number (0 to cancel): "]))) ∧
  (inventory (player g) ≠ [] →
   ∃ out, handle_use_item None g =
          (Return tt,
           mkGame (player g) (world g) ["look"]
             (stdout g ++ out ++ [nl +:+ "Enter number (0 to cancel): "]))) ∧
  (∀ r, world g !! location (player g) = Some r → exits r ≠ [] →
        ∃ out, handle_move g =
               (Return tt,
                mkGame (player g) (world g) ["look"]
                  (stdout g ++ out ++ [nl +:+ "Enter number (0 to cancel): "]))).
Proof.
  apply (zero_cancels (sample "Kitchen" ["Crowbar"] ["0"; "look"]) "0" ["look"]);
    reflexivity.
Defined.

(** X8.  When the player's location is not a key of the world, look, take
    and move raise KeyError for that location at once: nothing is printed,
    nothing is read, nothing is changed. *)
Theorem missing_room_is_a_key_error (g : Game) :
  world g !! location (player g) = None →
  handle_look g = (Raise (KeyError (location (player g))), g) ∧
  handle_take g = (Raise (KeyError (location (player g))), g) ∧
  handle_move g = (Raise (KeyError (location (player g))), g).
Proof.
  intros Hr.
  unfold handle_look, handle_take, handle_move, mbind, mret, M_bind, M_ret. simpl.
  by rewrite (run_get_room_None _ g Hr).
Qed.

Lemma missing_room_is_a_key_error_witness :
  let g := sample "Cellar" [] ["1"] in
  handle_look g = (Raise (KeyError (location (player g))), g) ∧
  handle_take g = (Raise (KeyError (location (player g))), g) ∧
  handle_move g = (Raise (KeyError (location (player g))), g).
Proof.
  apply (missing_room_is_a_key_error (sample "Cellar" [] ["1"])). reflexivity.
Defined.

(** ** The command loop *)

Lemma run_turn (g : Game) (line : string) (rest : list string) :
  stdin g = line :: rest →
  turn g =
  match dispatch (lower line) (at_dispatch g rest) with
  | (Return true, g') => (Return true, g')
  | (Return false, g') =>
      if String.eqb (location (player g')) "Exit Gate"
      then (Return true,
            with_stdout (stdout g' ++ victory_lines (name (player g'))) g')
      else (Return false, g')
  | (Raise e, g') =>
      if is_GameError e
      then (Return false,
            with_stdout (stdout g' ++ [nl +:+ "Error: " +:+ str_exn e]) g')
      else (Raise e, g')
  end.
Proof.
  intros Hin.
  unfold turn, try_GameError, input, print_header, at_dispatch,
    mbind, mret, M_bind, M_ret.
  simpl. rewrite Hin. simpl. rewrite <- app_assoc. simpl.
  destruct (dispatch (lower line) _) as [[[|]|e] g']; simpl; try done.
  destruct (String.eqb (location (player g')) "Exit Gate"); [|done].
  unfold with_stdout, victory_lines. simpl. by rewrite <- !app_assoc.
Qed.

Lemma run_turn_eof (g : Game) :
  stdin g = [] →
  turn g =
  (Raise EOFError,
   mkGame (player g) (world g) []
     (stdout g ++ [nl +:+ "[Current Location: " +:+ location (player g) +:+ "]";
                   nl +:+ "What will you do? "])).
Proof.
  intros Hin. unfold turn, try_GameError, input, mbind, mret, M_bind, M_ret.
  simpl. rewrite Hin. simpl. by rewrite <- app_assoc.
Qed.

(** X9.  A command that is none of the known words: [dispatch] raises
    InvalidCommandError and touches nothing, and the loop reports the error
    and goes on to the next turn with the player and the world unchanged. *)
Theorem unknown_command (g : Game) (line : string) (rest : list string) :
  stdin g = line :: rest →
  lower line ∉ known_commands →
  (∀ g0, dispatch (lower line) g0 =
         (Raise (InvalidCommandError "Invalid command. Type 'help' for commands."),
          g0)) ∧
  turn g =
  (Return false,
   with_stdout
     (stdout (at_dispatch g rest)
      ++ [nl +:+ "Error: Invalid command. Type 'help' for commands."])
     (at_dispatch g rest)).
Proof.
  intros Hin Hn.
  assert (Hd : ∀ g0, dispatch (lower line) g0 =
    (Raise (InvalidCommandError "Invalid command. Type 'help' for commands."), g0)).
  { intros g0. unfold known_commands in Hn.
    repeat (apply not_elem_of_cons in Hn as [? Hn]).
    unfold dispatch.
    rewrite !(proj2 (eqb_false _ _)) by done.
    rewrite !(proj2 (contains_false _ _));
      [done|..]; repeat (apply not_elem_of_cons; split; [done|]);
      apply not_elem_of_nil. }
  split; [exact Hd|].
  by rewrite (run_turn g line rest Hin), Hd.
Qed.

Lemma unknown_command_witness :
  let g := sample "Kitchen" [] ["dance"; "look"] in
  (∀ g0, dispatch (lower "dance") g0 =
         (Raise (InvalidCommandError "Invalid command. Type 'help' for commands."),
          g0)) ∧
  turn g =
  (Return false,
   with_stdout
     (stdout (at_dispatch g ["look"])
      ++ [nl +:+ "Error: Invalid command. Type 'help' for commands."])
     (at_dispatch g ["look"])).
Proof.
  apply (unknown_command (sample "Kitchen" [] ["dance"; "look"]) "dance" ["look"]).
  - reflexivity.
  - intros H. apply contains_true in H. discriminate H.
Defined.

(** X10.  A take with a full bag, seen from the loop: the
    InventoryFullError of [add_item] passes through [handle_take], is caught
    by the loop and printed as "Error: Inventory full! (Max n items)"; the
    player and the world are untouched (the item stays in the room) and the
    loop goes on. *)
Theorem full_bag_is_reported
    (g : Game) (r : Room) (item line : string) (rest : list string) :
  stdin g = line :: rest →
  lower line = "take" →
  takes (at_dispatch g rest) r item →
  ¬ has_room g →
  ∃ out rest',
    turn g =
    (Return false,
     mkGame (player g) (world g) rest'
       (stdout g ++ out ++
        [nl +:+ "Error: Inventory full! (Max "
         +:+ pretty (max_inventory (player g)) +:+ " items)"])).
Proof.
  intros Hin Hline Ht Hfull.
  rewrite (run_turn g line rest Hin), Hline.
  change (dispatch "take") with (handle_take;; mret false).
  rewrite run_bind.
  destruct (run_handle_take _ r item Ht) as (out & rest' & ->).
  unfold has_room in Hfull. apply Z.ltb_nlt in Hfull.
  change (player (at_dispatch g rest)) with (player g).
  rewrite Hfull. simpl.
  exists ([nl +:+ "[Current Location: " +:+ location (player g) +:+ "]";
           nl +:+ "What will you do? "] ++ out), rest'.
  unfold with_stdout. simpl. by rewrite <- !app_assoc.
Qed.

Lemma full_bag_is_reported_witness :
  let g := sample "Kitchen" ["Crowbar"; "Rope"; "Gem"; "Book"] ["take"; "1"] in
  ∃ out rest',
    turn g =
    (Return false,
     mkGame (player g) (world g) rest'
       (stdout g ++ out ++
        [nl +:+ "Error: Inventory full! (Max "
         +:+ pretty (max_inventory (player g)) +:+ " items)"])).
Proof.
  apply (full_bag_is_reported
           (sample "Kitchen" ["Crowbar"; "Rope"; "Gem"; "Book"] ["take"; "1"])
           kitchen_room "Torch" "take" ["1"]).
  - reflexivity.
  - reflexivity.
  - split; [reflexivity|]. exists "1", [], 1. repeat split; done.
  - unfold has_room. simpl. unfold default_max_inventory. lia.
Defined.

(** [dispatch] answers true for the quit command and for nothing else. *)
Lemma dispatch_quit (command : string) (g : Game) :
  command ∈ ["quit"; "q"] →
  dispatch command g =
  (Return true, with_stdout (stdout g ++ [nl +:+ "Thanks for playing!"]) g).
Proof.
  intros Hq. apply elem_of_cons in Hq as [->|Hq];
    [|apply elem_of_one in Hq as ->]; reflexivity.
Qed.

Lemma dispatch_true (command : string) (g g' : Game) :
  dispatch command g = (Return true, g') → command ∈ ["quit"; "q"].
Proof.
  destruct (contains command ["quit"; "q"]) eqn:Hq; [by apply contains_true in Hq|].
  unfold dispatch. rewrite Hq.
  repeat match goal with
    | |- context [if ?b then _ else _] =>
        lazymatch b with
        | String.eqb command _ => destruct b
        | contains command _ => destruct b
        end
    end;
    rewrite ?run_bind;
    repeat match goal with
      | |- context [match ?h ?G with _ => _ end] =>
          lazymatch h with
          | handle_look => destruct (h G) as [[[]|?] ?]
          | handle_take => destruct (h G) as [[[]|?] ?]
          | handle_move => destruct (h G) as [[[]|?] ?]
          | handle_use_item None => destruct (h G) as [[[]|?] ?]
          | show_inventory => destruct (h G) as [[[]|?] ?]
          | print _ => rewrite run_print
          end
    end; simpl; done.
Qed.

(** X11.  A turn ends the loop only for one of two reasons: the command was
    "quit" or "q" (in any letter case), or the command completed without an
    error and left the player in "Exit Gate".  In the second case the four
    victory lines, with the player's name, are the last thing printed. *)
Theorem turn_ends_on_quit_or_exit
    (g g' : Game) (line : string) (rest : list string) :
  stdin g = line :: rest →
  turn g = (Return true, g') →
  (lower line ∈ ["quit"; "q"] ∧
   g' = with_stdout (stdout (at_dispatch g rest) ++ [nl +:+ "Thanks for playing!"])
          (at_dispatch g rest)) ∨
  ((lower line ∉ ["quit"; "q"]) ∧
   location (player g') = "Exit Gate" ∧
   ∃ out, stdout g' = out ++ victory_lines (name (player g'))).
Proof.
  intros Hin. rewrite (run_turn g line rest Hin).
  destruct (decide (lower line ∈ ["quit"; "q"])) as [Hq|Hq].
  - rewrite (dispatch_quit _ _ Hq). intros [= <-]. by left.
  - destruct (dispatch (lower line) _) as [[[|]|e] g1] eqn:E.
    + by apply dispatch_true in E.
    + destruct (String.eqb (location (player g1)) "Exit Gate") eqn:El; [|done].
      intros [= <-]. right. apply eqb_true in El. simpl.
      split; [done|]. split; [done|]. by eexists.
    + by destruct (is_GameError e).
Qed.

Lemma turn_ends_on_quit_or_exit_witness :
  let g := sample "Kitchen" [] ["Quit"] in
  let g' := with_stdout (stdout (at_dispatch g []) ++ [nl +:+ "Thanks for playing!"])
              (at_dispatch g []) in
  (lower "Quit" ∈ ["quit"; "q"] ∧
   g' = with_stdout (stdout (at_dispatch g []) ++ [nl +:+ "Thanks for playing!"])
          (at_dispatch g [])) ∨
  ((lower "Quit" ∉ ["quit"; "q"]) ∧
   location (player g') = "Exit Gate" ∧
   ∃ out, stdout g' = out ++ victory_lines (name (player g'))).
Proof.
  apply (turn_ends_on_quit_or_exit (sample "Kitchen" [] ["Quit"]) _ "Quit" []);
    reflexivity.
Defined.

(** ** Every command is one step of the transition system *)

Lemma same_play_step (g g' : Game) : same_play g g' → play_step (play g) (play g').
Proof. intros [Hp Hw]. unfold play. rewrite Hp, Hw. constructor. Qed.

Lemma special_step (g : Game) :
  play_step (play g) (play (handle_special_interactions g).2).
Proof.
  destruct (decide (location (player g) = "Treasury")) as [Hl|Hl].
  2: { by apply same_play_step, special_same_play. }
  destruct (decide ("Gem" ∈ inventory (player g))) as [Hg|Hg];
    [destruct (world g !! "Treasury") as [r|] eqn:Hr|].
  - rewrite (run_special_treasury g r Hl Hg Hr). by apply step_gem.
  - apply same_play_step.
    unfold handle_special_interactions, has_item, update_room, get_room,
      get_world, raise, print, mbind, mret, M_bind, M_ret.
    apply contains_true in Hg.
    simpl. rewrite Hl. simpl. rewrite Hg. simpl. by rewrite Hr.
  - apply same_play_step. apply contains_false in Hg.
    unfold handle_special_interactions, has_item, mbind, mret, M_bind, M_ret.
    simpl. rewrite Hl. simpl. by rewrite Hg.
Qed.

Lemma look_step (g : Game) : play_step (play g) (play (handle_look g).2).
Proof.
  unfold handle_look. rewrite run_bind. simpl. rewrite run_bind.
  destruct (world g !! location (player g)) as [r|] eqn:Hr.
  - rewrite (run_get_room_Some _ r g Hr), run_bind, run_print.
    destruct (run_look_listing r handle_special_interactions
                (with_stdout (stdout g ++ [nl +:+ description r]) g)) as [out ->].
    apply (special_step (with_stdout _ (with_stdout _ g))).
  - rewrite (run_get_room_None _ g Hr). constructor.
Qed.

Lemma take_step (g : Game) : play_step (play g) (play (handle_take g).2).
Proof.
  destruct (take_cases g) as [Hs|(r & item & Ht)]; [by apply same_play_step|].
  destruct (run_handle_take g r item Ht) as (out & rest & ->).
  destruct Ht as (Hr & line & rest0 & choice & _ & _ & _ & Hidx).
  apply py_index_elem in Hidx.
  destruct (Z.ltb_spec (Z.of_nat (length (inventory (player g))))
              (max_inventory (player g))); simpl.
  - by apply step_take.
  - constructor.
Qed.

Lemma apply_item_lost (g : Game) (item : string) :
  world g !! location (player g) = None →
  (apply_item item g).2 = g.
Proof.
  intros Hr. unfold apply_item, handle_locked_chest. rewrite !run_bind. simpl.
  destruct (String.eqb (location (player g)) "Armory") eqn:El; simpl.
  - apply eqb_true in El. rewrite El in Hr.
    destruct (String.eqb item "Crowbar"); simpl.
    + by rewrite run_bind, (run_get_room_None _ g Hr).
    + rewrite run_bind. simpl. rewrite run_bind, El.
      by rewrite (run_get_room_None _ g Hr).
  - rewrite run_bind. simpl. rewrite run_bind.
    by rewrite (run_get_room_None _ g Hr).
Qed.

Lemma apply_item_step (g : Game) (item : string) :
  item ∈ inventory (player g) →
  play_step (play g) (play (apply_item item g).2).
Proof.
  intros Hin.
  destruct (world g !! location (player g)) as [r|] eqn:Hr.
  2: { rewrite (apply_item_lost g item Hr). constructor. }
  destruct (chest_applies_or_not g item r Hr) as [Hc|Hn].
  { destruct Hc as (Hl & -> & a & ob & Ha & Ho & Ht).
    rewrite (run_apply_item_chest g a ob Hl Ha Ho Ht Hin).
    by apply (step_chest _ _ a ob). }
  destruct (obstacle r) as [ob|] eqn:Ho.
  - destruct (decide (item = required_item ob)) as [->|Hne].
    + destruct (run_apply_item_match g _ r ob Hr Ho Hn eq_refl Hin) as [out ->].
      unfold play. simpl.
      assert (Hstep := step_resolve (player g) (world g) r ob Hr Ho Hin).
      destruct (contains (required_item ob) ["Cell Key"; "Iron Key"]);
        apply Hstep; intros (Hl & Hi & Ht); apply Hn;
        (split; [done|]; split; [done|]; exists r, ob;
         rewrite <- Hl; by repeat split).
    + rewrite (run_apply_item_miss g item r Hr Hn); [constructor|].
      intros ob' Ho'. rewrite Ho in Ho'. by injection Ho' as <-.
  - rewrite (run_apply_item_miss g item r Hr Hn); [constructor|].
    intros ob' Ho'. by rewrite Ho in Ho'.
Qed.

Lemma use_step (hint : option string) (g : Game) :
  play_step (play g) (play (handle_use_item hint g).2).
Proof.
  destruct (use_cases hint g) as [Hs|(item & Hu)]; [by apply same_play_step|].
  rewrite (run_handle_use_item hint g item Hu).
  destruct (choose_item_frame hint g) as (Hp & Hw & _ & Hin).
  specialize (Hin item Hu).
  replace (play g) with (play (choose_item hint g).2)
    by (unfold play; by rewrite Hp, Hw).
  apply apply_item_step. by rewrite Hp.
Qed.

Lemma keys_dict_get (d : list (string * string)) (k : string) :
  k ∈ keys d → is_Some (dict_get d k).
Proof.
  unfold keys. induction d as [|[k' v] d IH]; simpl.
  - intros H. by apply elem_of_nil in H.
  - intros H. destruct (String.eqb k k') eqn:E; [by eexists|].
    apply eqb_false in E. apply elem_of_cons in H as [H|H]; [done|]. by apply IH.
Qed.

Lemma move_step (g : Game) : play_step (play g) (play (handle_move g).2).
Proof.
  destruct (move_cases g) as [Hs|(r & line & attempted & Hp)];
    [by apply same_play_step|].
  destruct (run_handle_move_pick g r line attempted Hp) as (out & rest & Hin & ->).
  destruct Hp as (Hr & _ & choice & _ & _ & _ & _ & Hk).
  apply list_elem_of_lookup_2 in Hk. apply keys_dict_get in Hk as [t Ht].
  set (g1 := mkGame _ _ _ _).
  change (play g) with (play g1).
  destruct (blocked_or_free r attempted) as [Hb|Hf].
  - apply obstructs_blocked in Hb as (ob & Ho & Hb).
    rewrite (run_movement_blocked g1 _ _ r ob Hr Ho Hb). cbv zeta.
    destruct (stdin g1) as [|answer rest1]; [constructor|].
    destruct (String.eqb (lower answer) "y"); [|constructor].
    apply (use_step _ (mkGame (player g1) (world g1) rest1 _)).
  - rewrite (run_movement_free g1 _ _ r Hr Hf), Ht.
    by apply (step_move _ _ r attempted t).
Qed.

Lemma play_print (s : string) (g : Game) : play (print s g).2 = play g.
Proof. reflexivity. Qed.

Lemma dispatch_step (command : string) (g : Game) :
  play_step (play g) (play (dispatch command g).2).
Proof.
  unfold dispatch.
  repeat match goal with
    | |- context [if ?b then _ else _] => destruct b
    end;
    rewrite ?run_bind.
  - pose proof (look_step g). by destruct (handle_look g) as [[[]|?] ?].
  - pose proof (take_step g). by destruct (handle_take g) as [[[]|?] ?].
  - pose proof (move_step g). by destruct (handle_move g) as [[[]|?] ?].
  - pose proof (use_step None g). by destruct (handle_use_item None g) as [[[]|?] ?].
  - pose proof (same_play_show_inventory g) as H. apply same_play_step in H.
    by destruct (show_inventory g) as [[[]|?] ?].
  - constructor.
  - constructor.
  - constructor.
Qed.

Lemma turn_step (g : Game) : play_step (play g) (play (turn g).2).
Proof.
  destruct (stdin g) as [|line rest] eqn:Hin.
  { rewrite (run_turn_eof g Hin). constructor. }
  rewrite (run_turn g line rest Hin).
  pose proof (dispatch_step (lower line) (at_dispatch g rest)) as H.
  change (play (at_dispatch g rest)) with (play g) in H.
  destruct (dispatch (lower line) _) as [[[|]|e] g']; simpl in *; try done.
  - by destruct (String.eqb _ _).
  - by destruct (is_GameError e).
Qed.

Lemma main_loop_steps (fuel : nat) (g : Game) :
  rtc play_step (play g) (play (main_loop fuel g).2).
Proof.
  revert g. induction fuel as [|n IH]; intros g; simpl; [done|].
  rewrite run_bind. pose proof (turn_step g) as H.
  destruct (turn g) as [[[|]|e] g1]; simpl in *.
  - by apply rtc_once.
  - eapply rtc_l; [exact H|apply IH].
  - by apply rtc_once.
Qed.

(** ** What the transition system shows about whole games *)

(** X12.  The loop refines the transition system: whatever is typed, one
    pass of the loop changes the player and the world by one rule of
    [play_step] (the console-only rule included), so a run of the loop is a
    path of such steps. *)
Theorem game_is_a_path (fuel : nat) (g : Game) :
  play_step (play g) (play (turn g).2) ∧
  rtc play_step (play g) (play (main_loop fuel g).2).
Proof. split; [apply turn_step|apply main_loop_steps]. Qed.

(** An invariant of the steps is an invariant of the loop. *)
Lemma steps_invariant (I : Player * gmap string Room → Prop) :
  (∀ s s', play_step s s' → I s → I s') →
  ∀ fuel g, I (play g) → I (play (main_loop fuel g).2).
Proof.
  intros Hstep fuel g Hg.
  induction (main_loop_steps fuel g) as [|s1 s2 s3 H12 _ IH]; [done|].
  apply IH. by apply (Hstep s1).
Qed.

Lemma list_remove_length (x : string) (l : list string) :
  (length (list_remove x l) ≤ length l)%nat.
Proof. apply sublist_length, list_remove_sublist. Qed.

Lemma list_remove_other (x y : string) (l : list string) :
  x ≠ y → x ∈ l → x ∈ list_remove y l.
Proof.
  intros Hne. induction l as [|z l IH]; [done|]. simpl.
  intros Hin. destruct (String.eqb y z) eqn:E.
  - apply eqb_true in E. subst z.
    apply elem_of_cons in Hin as [Hin|Hin]; [done|exact Hin].
  - apply elem_of_cons in Hin as [->|Hin]; [by left|]. right. by apply IH.
Qed.

Lemma step_within_capacity (s s' : Player * gmap string Room) :
  play_step s s' → within_capacity s → within_capacity s'.
Proof.
  unfold within_capacity.
  destruct 1 as [p w|p w r item Hr Hin Hroom|p w a ob Hl Ha Ho Ht Hc
                |p w r ob Hr Ho Hin Hn|p w t Hl Hg Ht|p w r d t Hr Hf Hd];
    simpl; intros Hcap; try done.
  - rewrite length_app. simpl. lia.
  - pose proof (list_remove_length "Crowbar" (inventory p)). lia.
  - destruct (contains _ _); simpl; [|done].
    pose proof (list_remove_length (required_item ob) (inventory p)). lia.
Qed.

(** X13.  The bag never overflows: if the player starts with no more items
    than [max_inventory] allows, that is still so after any number of
    commands, whatever is typed. *)
Theorem bag_never_overflows (fuel : nat) (g : Game) :
  within_capacity (play g) → within_capacity (play (main_loop fuel g).2).
Proof. apply steps_invariant, step_within_capacity. Qed.

Lemma bag_never_overflows_witness :
  within_capacity
    (play (main_loop 3 (sample "Kitchen" ["Crowbar"; "Rope"; "Gem"]
                          ["take"; "1"; "take"; "1"])).2).
Proof.
  apply (bag_never_overflows 3
           (sample "Kitchen" ["Crowbar"; "Rope"; "Gem"] ["take"; "1"; "take"; "1"])).
  unfold within_capacity. simpl. unfold default_max_inventory. lia.
Defined.

Lemma step_keeps_tools (item : string) (s s' : Player * gmap string Room) :
  item ∉ consumables →
  play_step s s' → item ∈ inventory s.1 → item ∈ inventory s'.1.
Proof.
  unfold consumables. intros Hn.
  apply not_elem_of_cons in Hn as [Hcrow Hn].
  destruct 1 as [p w|p w r it Hr Hin Hroom|p w a ob Hl Ha Ho Ht Hc
                |p w r ob Hr Ho Hin Hn'|p w t Hl Hg Ht|p w r d t Hr Hf Hd];
    simpl; intros Hitem; try done.
  - apply elem_of_app. by left.
  - by apply list_remove_other.
  - destruct (contains (required_item ob) ["Cell Key"; "Iron Key"]) eqn:E;
      simpl; [|done].
    apply contains_true in E. apply list_remove_other; [|done].
    intros ->. done.
Qed.

(** X14.  Only the Crowbar and the two keys are ever used up: any other
    item, once in the bag, is in the bag for the rest of the game.  (The
    game has no command to drop an item.) *)
Theorem tools_are_never_lost (fuel : nat) (g : Game) (item : string) :
  item ∉ consumables →
  item ∈ inventory (player g) →
  item ∈ inventory (player (main_loop fuel g).2).
Proof.
  intros Hn.
  apply (steps_invariant (λ s, item ∈ inventory s.1)).
  intros s s'. by apply step_keeps_tools.
Qed.

Lemma tools_are_never_lost_witness :
  "Torch" ∈ inventory
    (player (main_loop 2 (sample "Guard Room" ["Torch"] ["use"; "1"; "look"])).2).
Proof.
  apply (tools_are_never_lost 2
           (sample "Guard Room" ["Torch"] ["use"; "1"; "look"]) "Torch").
  - intros H. apply contains_true in H. discriminate H.
  - apply contains_true. reflexivity.
Defined.

Lemma step_location (s s' : Player * gmap string Room) :
  play_step s s' →
  location s'.1 = location s.1 ∨
  ∃ r d, s.2 !! location s.1 = Some r ∧ ¬ blocked r d ∧
         dict_get (exits r) d = Some (location s'.1).
Proof.
  destruct 1 as [p w|p w r item Hr Hin Hroom|p w a ob Hl Ha Ho Ht Hc
                |p w r ob Hr Ho Hin Hn|p w t Hl Hg Ht|p w r d t Hr Hf Hd];
    simpl; try (by left).
  - left. by destruct (contains _ _).
  - right. by exists r, d.
Qed.

(** X15.  No walking through walls: after one pass of the loop the player
    is where they were, or in the room behind an exit of the room they were
    in, and that exit was not blocked by the room's obstacle when the
    command was typed. *)
Theorem player_moves_through_open_exits (g : Game) :
  let here := location (player g) in
  let there := location (player (turn g).2) in
  there = here ∨
  ∃ r d, world g !! here = Some r ∧ ¬ blocked r d ∧ dict_get (exits r) d = Some there.
Proof. apply (step_location (play g) (play (turn g).2)), turn_step. Qed.

Lemma insert_closed (w : gmap string Room) (k : string) (r r' : Room) :
  w !! k = Some r → exits r' = exits r → closed w → closed (<[k := r']> w).
Proof.
  intros Hk He Hc k0 r0 d t Hr0 Hd.
  assert (is_Some (w !! t)) as [rt Hrt].
  { destruct (decide (k0 = k)) as [->|Hne].
    - rewrite lookup_insert_eq in Hr0. injection Hr0 as <-.
      rewrite He in Hd. by apply (Hc k r d t).
    - rewrite lookup_insert_ne in Hr0 by done. by apply (Hc k0 r0 d t). }
  destruct (decide (t = k)) as [->|Hne].
  - rewrite lookup_insert_eq. by eexists.
  - rewrite lookup_insert_ne by done. by eexists.
Qed.

Lemma insert_is_Some (w : gmap string Room) (k k' : string) (r' : Room) :
  is_Some (w !! k') → is_Some (<[k := r']> w !! k').
Proof.
  intros H. destruct (decide (k' = k)) as [->|Hne].
  - rewrite lookup_insert_eq. by eexists.
  - by rewrite lookup_insert_ne.
Qed.

Lemma step_well_formed (s s' : Player * gmap string Room) :
  play_step s s' → well_formed s → well_formed s'.
Proof.
  unfold well_formed.
  destruct 1 as [p w|p w r item Hr Hin Hroom|p w a ob Hl Ha Ho Ht Hc
                |p w r ob Hr Ho Hin Hn|p w t Hl Hg Ht|p w r d t Hr Hf Hd];
    simpl; intros [Hloc Hcl]; try done.
  - split; [by apply insert_is_Some|by apply (insert_closed _ _ r)].
  - split; [by apply insert_is_Some|by apply (insert_closed _ _ a)].
  - split.
    + destruct (contains _ _); by apply insert_is_Some.
    + by apply (insert_closed _ _ r).
  - split; [by apply insert_is_Some|by apply (insert_closed _ _ t)].
  - split; [by apply (Hcl (location p) r d t)|done].
Qed.

Lemma create_world_closed : closed create_world.
Proof.
  intros k r d t Hr Hd. unfold create_world in Hr.
  apply elem_of_list_to_map_2 in Hr.
  repeat (apply elem_of_cons in Hr as [Hr|Hr];
          [injection Hr as -> ->; simpl in Hd;
           repeat (destruct (String.eqb d _);
                   [injection Hd as <-; by eexists|]); done|]).
  by apply elem_of_nil in Hr.
Qed.

(** X16.  The player stays on the map.  Every exit of [create_world] leads
    to a room of [create_world]; and in any world with that property, a
    player who stands in one of its rooms still does after any number of
    commands, and the property still holds. *)
Theorem player_stays_on_the_map (fuel : nat) (g : Game) :
  closed create_world ∧
  (well_formed (play g) → well_formed (play (main_loop fuel g).2)).
Proof.
  split; [apply create_world_closed|].
  apply steps_invariant, step_well_formed.
Qed.

Lemma player_stays_on_the_map_witness :
  well_formed
    (play (main_loop 2 (sample "Corridor" ["Crowbar"] ["move"; "2"; "look"])).2).
Proof.
  apply (proj2 (player_stays_on_the_map 2
                  (sample "Corridor" ["Crowbar"] ["move"; "2"; "look"]))).
  split; [by eexists|apply create_world_closed].
Defined.

(** ** The exceptions that a command can raise *)

Ltac quiet :=
  try (split; [done|]);
  let e := fresh "e" in
  let He := fresh "He" in
  intros e He; simpl in He; try discriminate He;
  injection He as <-;
  first [ by left | by (right; left) | by (right; right) ].

Lemma special_returns (g : Game) :
  is_Some (world g !! location (player g)) →
  (handle_special_interactions g).1 = Return tt.
Proof.
  intros [r Hr].
  unfold handle_special_interactions, has_item, update_room, get_room,
    get_world, raise, print, mbind, mret, M_bind, M_ret.
  simpl.
  destruct (String.eqb_spec (location (player g)) "Library") as [El|_]; simpl.
  { rewrite <- El, Hr. simpl.
    assert (String.eqb (location (player g)) "Study" = false) as ->
        by (by rewrite El).
    assert (String.eqb (location (player g)) "Treasury" = false) as ->
        by (by rewrite El).
    by destruct (contains "Book" _). }
  destruct (String.eqb_spec (location (player g)) "Study") as [El|_]; simpl.
  { rewrite <- El, Hr. simpl.
    assert (String.eqb (location (player g)) "Treasury" = false) as ->
        by (by rewrite El).
    by destruct (contains "Note" _). }
  destruct (String.eqb_spec (location (player g)) "Treasury") as [El|_];
    simpl; [|done].
  destruct (contains "Gem" _); simpl; [|done].
  by rewrite <- El, Hr.
Qed.

Lemma look_fails (g : Game) : fails_as_expected g (handle_look g).
Proof.
  unfold handle_look. rewrite run_bind. simpl. rewrite run_bind.
  destruct (world g !! location (player g)) as [r|] eqn:Hr.
  - rewrite (run_get_room_Some _ r g Hr), run_bind, run_print.
    destruct (run_look_listing r handle_special_interactions
                (with_stdout (stdout g ++ [nl +:+ description r]) g)) as [out ->].
    intros e He.
    rewrite (special_returns (with_stdout _ (with_stdout _ g))) in He;
      [done|by exists r].
  - rewrite (run_get_room_None _ g Hr). quiet.
Qed.

Lemma take_fails (g : Game) : fails_as_expected g (handle_take g).
Proof.
  assert ((same_play g (handle_take g).2 ∧ fails_as_expected g (handle_take g))
          ∨ ∃ r item, takes g r item) as [[_ H]|(r & item & Ht)]; [|done|].
  { unfold handle_take. rewrite run_bind. simpl. rewrite run_bind.
    destruct (world g !! location (player g)) as [r|] eqn:Hr.
    2: { left. rewrite (run_get_room_None _ g Hr). quiet. }
    rewrite (run_get_room_Some _ r g Hr).
    destruct (items r) as [|x xs] eqn:Ei; [left; quiet|].
    unfold input, mbind, mret, M_bind, M_ret. simpl. run_numbered.
    destruct (stdin g) as [|line rest] eqn:Hin; [left; quiet|]. simpl.
    destruct (py_int line) as [choice|] eqn:Hint; [|left; quiet]. simpl.
    destruct (Z.eqb_spec choice 0) as [|Hc]; [left; quiet|]. simpl.
    destruct (py_index (x :: xs) (choice - 1)) as [item|] eqn:Hidx; [|left; quiet].
    right. exists r, item. split; [done|]. exists line, rest, choice.
    by rewrite Ei. }
  destruct (run_handle_take g r item Ht) as (out & rest & ->).
  destruct (Z.ltb _ _); quiet.
Qed.

Lemma choose_item_fails (hint : option string) (g : Game) :
  fails_as_expected g (choose_item hint g).
Proof.
  unfold choose_item, has_item, mbind, mret, M_bind, M_ret. simpl.
  destruct (inventory (player g)) as [|x xs] eqn:Einv; simpl; [quiet|].
  destruct (hinted hint); simpl.
  - destruct (contains _ _); simpl; quiet.
  - run_numbered. unfold input. simpl.
    destruct (stdin g) as [|line rest]; simpl; [quiet|].
    destruct (py_int line) as [choice|]; simpl; [|quiet].
    destruct (Z.eqb choice 0); simpl; [quiet|].
    destruct (py_index (x :: xs) (choice - 1)); simpl; quiet.
Qed.

Lemma apply_item_lost_error (g : Game) (item : string) :
  world g !! location (player g) = None →
  (apply_item item g).1 = Raise (KeyError (location (player g))).
Proof.
  intros Hr. unfold apply_item, handle_locked_chest. rewrite !run_bind. simpl.
  destruct (String.eqb (location (player g)) "Armory") eqn:El; simpl.
  - apply eqb_true in El. rewrite El in Hr.
    destruct (String.eqb item "Crowbar"); simpl.
    + by rewrite run_bind, (run_get_room_None _ g Hr), El.
    + rewrite run_bind. simpl. rewrite run_bind, El.
      by rewrite (run_get_room_None _ g Hr).
  - rewrite run_bind. simpl. rewrite run_bind.
    by rewrite (run_get_room_None _ g Hr).
Qed.

Lemma apply_item_fails (g : Game) (item : string) :
  item ∈ inventory (player g) →
  fails_as_expected g (apply_item item g).
Proof.
  intros Hin.
  destruct (world g !! location (player g)) as [r|] eqn:Hr.
  2: { intros e He. rewrite (apply_item_lost_error g item Hr) in He.
       injection He as <-. right. by left. }
  destruct (chest_applies_or_not g item r Hr) as [Hc|Hn].
  { destruct Hc as (Hl & -> & a & ob & Ha & Ho & Ht).
    rewrite (run_apply_item_chest g a ob Hl Ha Ho Ht Hin). quiet. }
  destruct (obstacle r) as [ob|] eqn:Ho.
  - destruct (decide (item = required_item ob)) as [->|Hne].
    + destruct (run_apply_item_match g _ r ob Hr Ho Hn eq_refl Hin) as [out ->].
      quiet.
    + rewrite (run_apply_item_miss g item r Hr Hn); [quiet|].
      intros ob' Ho'. rewrite Ho in Ho'. by injection Ho' as <-.
  - rewrite (run_apply_item_miss g item r Hr Hn); [quiet|].
    intros ob' Ho'. by rewrite Ho in Ho'.
Qed.

Lemma fails_same_play {A : Type} (g g1 : Game) (r : outcome A * Game) :
  same_play g g1 → fails_as_expected g1 r → fails_as_expected g r.
Proof. intros [Hp Hw] H e He. rewrite <- Hp, <- Hw. by apply H. Qed.

Lemma use_fails (hint : option string) (g : Game) :
  fails_as_expected g (handle_use_item hint g).
Proof.
  pose proof (choose_item_fails hint g) as Hc.
  destruct (choose_item_frame hint g) as (Hp & Hw & _ & Hin).
  unfold uses in Hin. unfold handle_use_item. rewrite run_bind.
  destruct (choose_item hint g) as [[[item|]|e] g1] eqn:E; simpl in *.
  - apply (fails_same_play g g1); [done|].
    apply apply_item_fails. rewrite Hp. by apply Hin.
  - quiet.
  - intros e' [= <-]. by apply (Hc e).
Qed.

Lemma move_fails (g : Game) : fails_as_expected g (handle_move g).
Proof.
  assert ((same_play g (handle_move g).2 ∧ fails_as_expected g (handle_move g))
          ∨ ∃ r line attempted, picks g r line attempted)
    as [[_ H]|(r & line & attempted & Hp)]; [|done|].
  { unfold handle_move. rewrite run_bind. simpl. rewrite run_bind.
    destruct (world g !! location (player g)) as [r|] eqn:Hr.
    2: { left. rewrite (run_get_room_None _ g Hr). quiet. }
    rewrite (run_get_room_Some _ r g Hr). cbv zeta.
    destruct (keys (exits r)) as [|k ks] eqn:Ek; [left; quiet|].
    unfold input, py_index, mbind, mret, M_bind, M_ret. simpl. run_numbered.
    destruct (stdin g) as [|line rest] eqn:Hin; [left; quiet|]. simpl.
    destruct (py_int line) as [choice|] eqn:Hint; [|left; quiet]. simpl.
    destruct (Z.eqb_spec choice 0) as [|Hc]; [left; quiet|]. simpl.
    destruct (Z.leb 0 (choice - 1)
              && Z.ltb (choice - 1) (Z.of_nat (S (length ks))))%bool eqn:Hrange;
      simpl; [|left; quiet].
    apply andb_prop in Hrange as [Hlo Hhi].
    apply Z.leb_le in Hlo. apply Z.ltb_lt in Hhi.
    destruct ((k :: ks) !! Z.to_nat (choice - 1)) as [attempted|] eqn:Hk.
    2: { apply lookup_ge_None in Hk. simpl in Hk. lia. }
    right. exists r, line, attempted. split; [done|]. exists rest, choice.
    rewrite Ek. repeat split; auto. }
  destruct (run_handle_move_pick g r line attempted Hp) as (out & rest & Hin & ->).
  destruct Hp as (Hr & _ & choice & _ & _ & _ & _ & Hk).
  apply list_elem_of_lookup_2 in Hk. apply keys_dict_get in Hk as [t Ht].
  set (g1 := mkGame _ _ _ _).
  apply (fails_same_play g g1); [done|].
  destruct (blocked_or_free r attempted) as [Hb|Hf].
  - apply obstructs_blocked in Hb as (ob & Ho & Hb).
    rewrite (run_movement_blocked g1 _ _ r ob Hr Ho Hb). cbv zeta.
    destruct (stdin g1) as [|answer rest1]; [quiet|].
    destruct (String.eqb (lower answer) "y"); [|quiet].
    match goal with
    | |- fails_as_expected _ (handle_use_item _ ?G) =>
        apply (fails_same_play g1 G); [done|apply use_fails]
    end.
  - rewrite (run_movement_free g1 _ _ r Hr Hf), Ht. quiet.
Qed.

Lemma run_bullets (xs : list string) (g : Game) :
  print_bullets xs g =
  (Return tt, with_stdout (stdout g ++ ((λ x, "- " +:+ x) <$> xs)) g).
Proof.
  revert g. induction xs as [|x xs IH]; intros g.
  - unfold with_stdout. simpl. rewrite app_nil_r. by destruct g.
  - change (print_bullets (x :: xs)) with (print ("- " +:+ x);; print_bullets xs).
    rewrite run_bind, run_print, IH. unfold with_stdout. simpl.
    by rewrite <- app_assoc.
Qed.

Lemma run_show_inventory (g : Game) :
  show_inventory g =
  (Return tt,
   with_stdout
     (stdout g ++
      match inventory (player g) with
      | [] => [nl +:+ "Your bag is empty."]
      | _ :: _ =>
          (nl +:+ "Inventory (" +:+ pretty (length (inventory (player g))) +:+ "/"
           +:+ pretty (max_inventory (player g)) +:+ "):")
          :: ((λ x, "- " +:+ x) <$> inventory (player g))
      end) g).
Proof.
  unfold show_inventory. rewrite run_bind. simpl.
  destruct (inventory (player g)) as [|x xs]; [done|].
  rewrite run_bind, run_print, run_bullets. unfold with_stdout. simpl.
  by rewrite <- app_assoc.
Qed.

Lemma bind_ret_fails {A B : Type} (g : Game) (m : M A) (b : B) :
  fails_as_expected g (m g) → fails_as_expected g ((m;; mret b) g).
Proof.
  intros H. rewrite run_bind. destruct (m g) as [[a|e] g1]; [quiet|].
  intros e' [= <-]. by apply (H e).
Qed.

Lemma dispatch_fails (command : string) (g : Game) :
  fails_as_expected g (dispatch command g).
Proof.
  unfold dispatch.
  repeat match goal with
    | |- context [if ?b then _ else _] => destruct b
    end;
    try (apply bind_ret_fails).
  - apply look_fails.
  - apply take_fails.
  - apply move_fails.
  - apply use_fails.
  - rewrite run_show_inventory. quiet.
  - quiet.
  - quiet.
  - quiet.
Qed.

(** What can leave one pass of the loop. *)
Lemma turn_raises (g : Game) (e : exn) :
  (turn g).1 = Raise e →
  (e = EOFError ∧ stdin (turn g).2 = []) ∨
  (e = KeyError (location (player g)) ∧ world g !! location (player g) = None).
Proof.
  destruct (stdin g) as [|line rest] eqn:Hin.
  { rewrite (run_turn_eof g Hin). simpl. intros [= <-]. by left. }
  rewrite (run_turn g line rest Hin).
  pose proof (dispatch_fails (lower line) (at_dispatch g rest)) as H.
  destruct (dispatch (lower line) _) as [[[|]|e'] g']; simpl in *; try done.
  - by destruct (String.eqb _ _).
  - destruct (is_GameError e') eqn:E; simpl; [done|]. intros [= <-].
    destruct (H e' eq_refl) as [?|[?|?]]; [by left|by right|congruence].
Qed.

(** On a map where the player stays, only the end of the input is left. *)
Lemma main_loop_raises (fuel : nat) (g : Game) (e : exn) :
  well_formed (play g) →
  (main_loop fuel g).1 = Raise e →
  e = EOFError ∧ stdin (main_loop fuel g).2 = [].
Proof.
  revert g. induction fuel as [|n IH]; intros g Hwf; simpl; [done|].
  rewrite run_bind.
  pose proof (turn_raises g) as Hr. pose proof (turn_step g) as Hs.
  destruct (turn g) as [[[|]|e'] g1]; simpl in *; [done| |].
  - apply IH. by apply (step_well_formed (play g)).
  - intros [= <-]. destruct (Hr e' eq_refl) as [?|[_ Hnone]]; [done|].
    destruct Hwf as [[r Hsome] _]. simpl in Hsome. congruence.
Qed.

(** X17.  The only exceptions that can leave a pass of the loop, whatever
    is typed: EOFError, when the input has run out, and KeyError for the
    player's location, when that location is not a room of the world.  In
    particular no menu choice raises IndexError or ValueError past the
    handlers and no exit of the current room is looked up in vain.  So on a
    map whose exits all lead to rooms, with the player in one of them, the
    loop can only be stopped abnormally by the end of the input. *)
Theorem only_end_of_input_escapes (fuel : nat) (g : Game) (e : exn) :
  ((turn g).1 = Raise e →
   (e = EOFError ∧ stdin (turn g).2 = []) ∨
   (e = KeyError (location (player g)) ∧ world g !! location (player g) = None)) ∧
  (well_formed (play g) →
   (main_loop fuel g).1 = Raise e →
   e = EOFError ∧ stdin (main_loop fuel g).2 = []).
Proof. split; [apply turn_raises|apply main_loop_raises]. Qed.

Lemma only_end_of_input_escapes_witness :
  EOFError = EOFError ∧
  stdin (main_loop 3 (sample "Kitchen" ["Torch"] ["look"; "take"])).2 = [].
Proof.
  apply (only_end_of_input_escapes 3
           (sample "Kitchen" ["Torch"] ["look"; "take"]) EOFError).
  - split; [by eexists|apply create_world_closed].
  - reflexivity.
Defined.

(** ** How a game started by [main] ends *)

Lemma main_loop_fuel (n m : nat) (g : Game) :
  (length (stdin g) < n)%nat → (length (stdin g) < m)%nat →
  main_loop n g = main_loop m g.
Proof.
  revert m g. induction n as [|n IH]; intros m g Hn Hm; [lia|].
  destruct m as [|m]; [lia|]. simpl. rewrite !run_bind.
  pose proof (turn_consumes g) as Ht.
  destruct (turn g) as [[[|]|e] g1]; simpl; [done| |done].
  apply IH; lia.
Qed.

Lemma turn_true_last (g g' : Game) :
  turn g = (Return true, g') →
  last (stdout g') = Some (nl +:+ "Thanks for playing!") ∨
  location (player g') = "Exit Gate".
Proof.
  destruct (stdin g) as [|line rest] eqn:Hin.
  { by rewrite (run_turn_eof g Hin). }
  rewrite (run_turn g line rest Hin).
  destruct (dispatch (lower line) _) as [[[|]|e] g1] eqn:E.
  - pose proof (dispatch_true _ _ _ E) as Hq.
    rewrite (dispatch_quit _ _ Hq) in E. injection E as <-.
    intros [= <-]. left. simpl. apply last_snoc.
  - destruct (String.eqb (location (player g1)) "Exit Gate") eqn:El; [|done].
    intros [= <-]. right. by apply eqb_true in El.
  - by destruct (is_GameError e).
Qed.

Lemma main_loop_true_last (fuel : nat) (g g' : Game) :
  main_loop fuel g = (Return true, g') →
  last (stdout g') = Some (nl +:+ "Thanks for playing!") ∨
  location (player g') = "Exit Gate".
Proof.
  revert g. induction fuel as [|n IH]; intros g; simpl; [done|].
  rewrite run_bind. pose proof (turn_true_last g) as Ht.
  destruct (turn g) as [[[|]|e] g1]; simpl; [|apply IH|done].
  intros [= <-]. by apply Ht.
Qed.

Lemma initial_game_well_formed (player_name : string) (lines : list string) :
  well_formed (play (initial_game player_name lines)).
Proof. split; [by eexists|apply create_world_closed]. Qed.

(** X18.  A game started by [main] on a finite input always ends, after at
    most one pass of the loop per line typed, and it ends in one of two
    ways: with "Thanks for playing!", after quit, or, all lines read, with
    the report of the EOFError of [input].  The program was given the name
    when [NoGame] is not the result.  No input makes it print the victory
    lines, and no input makes it stop on another exception. *)
Theorem how_a_game_ends (fuel : nat) (lines : list string) :
  (length lines ≤ fuel)%nat →
  (∀ fuel', (length lines ≤ fuel')%nat → main fuel' lines = main fuel lines) ∧
  match main fuel lines with
  | NoGame _ => lines = []
  | Stopped g =>
      last (stdout g) = Some (nl +:+ "Thanks for playing!") ∨
      (stdin g = [] ∧
       last (stdout g)
       = Some (nl +:+ "An unexpected error occurred: EOF when reading a line"))
  | OutOfFuel _ => False
  end.
Proof.
  intros Hlen. destruct lines as [|player_name rest]; [done|].
  simpl in Hlen. split.
  { intros fuel' Hlen'. simpl in Hlen'. unfold main.
    by rewrite (main_loop_fuel fuel' fuel) by (simpl; lia). }
  unfold main.
  pose proof (main_loop_total fuel (initial_game player_name rest)) as Htot.
  pose proof (main_loop_true_last fuel (initial_game player_name rest)) as Hlast.
  pose proof (main_loop_raises fuel (initial_game player_name rest)) as Hraise.
  pose proof (locked_main_loop fuel (initial_game player_name rest)
                (initial_game_locked_in player_name rest)) as Hl.
  destruct (main_loop fuel (initial_game player_name rest)) as [[[|]|e] g1];
    simpl in *.
  - destruct (Hlast g1 eq_refl) as [?|Hexit]; [by left|].
    destruct (locked_in_view _ Hl) as (Hcell & _). by rewrite Hcell in Hexit.
  - apply Htot; [lia|done].
  - destruct (Hraise e (initial_game_well_formed _ _) eq_refl) as [-> Hin].
    right. split; [done|]. apply last_snoc.
Qed.

Lemma how_a_game_ends_witness :
  (∀ fuel', (length ["Ann"; "look"; "q"] ≤ fuel')%nat →
            main fuel' ["Ann"; "look"; "q"] = main 3 ["Ann"; "look"; "q"]) ∧
  match main 3 ["Ann"; "look"; "q"] with
  | NoGame _ => ["Ann"; "look"; "q"] = []
  | Stopped g =>
      last (stdout g) = Some (nl +:+ "Thanks for playing!") ∨
      (stdin g = [] ∧
       last (stdout g)
       = Some (nl +:+ "An unexpected error occurred: EOF when reading a line"))
  | OutOfFuel _ => False
  end.
Proof.
  apply (how_a_game_ends 3 ["Ann"; "look"; "q"]). simpl. lia.
Defined.

(** ** Commands that only talk *)

Lemma with_stdout_nil (g : Game) : with_stdout (stdout g ++ []) g = g.
Proof. unfold with_stdout. rewrite app_nil_r. by destruct g. Qed.

Lemma special_quiet (g : Game) (r : Room) :
  world g !! location (player g) = Some r →
  ¬ (location (player g) = "Treasury" ∧ "Gem" ∈ inventory (player g)) →
  ∃ out,
    handle_special_interactions g = (Return tt, with_stdout (stdout g ++ out) g).
Proof.
  intros Hr Hn.
  unfold handle_special_interactions, has_item, update_room, get_room,
    get_world, raise, print, mbind, mret, M_bind, M_ret.
  simpl.
  destruct (String.eqb_spec (location (player g)) "Library") as [El|_]; simpl.
  { rewrite <- El, Hr. simpl. rewrite El. simpl.
    destruct (contains "Book" _); simpl; [by eexists [_]|].
    exists []. by rewrite with_stdout_nil. }
  destruct (String.eqb_spec (location (player g)) "Study") as [El|_]; simpl.
  { rewrite <- El, Hr. simpl. rewrite El. simpl.
    destruct (contains "Note" _); simpl; [by eexists [_]|].
    exists []. by rewrite with_stdout_nil. }
  destruct (String.eqb_spec (location (player g)) "Treasury") as [El|_]; simpl.
  - destruct (contains "Gem" _) eqn:Eg; simpl.
    + apply contains_true in Eg. by destruct Hn.
    + exists []. by rewrite with_stdout_nil.
  - exists []. by rewrite with_stdout_nil.
Qed.

(** X19.  Looking is read-only.  In a room of the world, unless the player
    is in the Treasury with the Gem, the look command returns normally and
    its whole effect is on the output, which starts with the description of
    the room: the player, the world and the pending input are as before. *)
Theorem look_changes_nothing (g : Game) (r : Room) :
  world g !! location (player g) = Some r →
  ¬ (location (player g) = "Treasury" ∧ "Gem" ∈ inventory (player g)) →
  ∃ out,
    handle_look g =
    (Return tt, with_stdout (stdout g ++ (nl +:+ description r) :: out) g).
Proof.
  intros Hr Hn.
  unfold handle_look. rewrite run_bind. simpl.
  rewrite run_bind, (run_get_room_Some _ r g Hr), run_bind, run_print.
  destruct (run_look_listing r handle_special_interactions
              (with_stdout (stdout g ++ [nl +:+ description r]) g)) as [out1 ->].
  destruct (special_quiet
              (with_stdout
                 (stdout (with_stdout (stdout g ++ [nl +:+ description r]) g)
                  ++ out1)
                 (with_stdout (stdout g ++ [nl +:+ description r]) g)) r Hr Hn)
    as [out2 ->].
  exists (out1 ++ out2). unfold with_stdout. simpl.
  by rewrite <- !app_assoc.
Qed.

Lemma look_changes_nothing_witness :
  ∃ out,
    handle_look (sample "Kitchen" ["Gem"] ["look"]) =
    (Return tt,
     with_stdout
       (stdout (sample "Kitchen" ["Gem"] ["look"])
        ++ (nl +:+ description kitchen_room) :: out)
       (sample "Kitchen" ["Gem"] ["look"])).
Proof.
  apply (look_changes_nothing (sample "Kitchen" ["Gem"] ["look"]) kitchen_room).
  - reflexivity.
  - intros [H _]. discriminate H.
Defined.

(** X20.  The inventory command, "inventory" or "i" once the loop has
    lowered it: it prints "Your bag is empty." for an empty bag, and otherwise a
    line with the number of items and the capacity followed by one line per
    item, in the order of the bag; it changes nothing else and the loop
    goes on. *)
Theorem inventory_command (g : Game) (command : string) :
  command ∈ ["inventory"; "i"] →
  dispatch command g =
  (Return false,
   with_stdout
     (stdout g ++
      match inventory (player g) with
      | [] => [nl +:+ "Your bag is empty."]
      | _ :: _ =>
          (nl +:+ "Inventory (" +:+ pretty (length (inventory (player g))) +:+ "/"
           +:+ pretty (max_inventory (player g)) +:+ "):")
          :: ((λ x, "- " +:+ x) <$> inventory (player g))
      end) g).
Proof.
  intros Hc.
  assert (dispatch command = (show_inventory;; mret false)) as ->.
  { apply elem_of_cons in Hc as [->|Hc];
      [|apply elem_of_one in Hc as ->]; reflexivity. }
  by rewrite run_bind, run_show_inventory.
Qed.

Lemma inventory_command_witness :
  dispatch "i" (sample "Kitchen" ["Rope"; "Torch"] []) =
  (Return false,
   with_stdout
     [nl +:+ "Inventory (" +:+ pretty 2%nat +:+ "/" +:+ pretty 4%Z +:+ "):";
      "- Rope"; "- Torch"]
     (sample "Kitchen" ["Rope"; "Torch"] [])).
Proof.
  apply (inventory_command (sample "Kitchen" ["Rope"; "Torch"] []) "i").
  apply contains_true. reflexivity.
Defined.

(** ** Items are conserved *)

Lemma copies_perm (x : string) (l l' : list string) :
  l ≡ₚ l' → copies x l = copies x l'.
Proof. unfold copies. by intros ->. Qed.

Lemma copies_remove (x item : string) (l : list string) :
  item ∈ l →
  (copies x (list_remove item l) + copies x [item])%nat = copies x l.
Proof.
  intros Hin.
  rewrite <- (copies_perm x _ _ (list_remove_present item l Hin)).
  change (item :: list_remove item l) with ([item] ++ list_remove item l).
  rewrite copies_app. lia.
Qed.

Lemma rooms_insert (x k : string) (w : gmap string Room) (r r' : Room) :
  w !! k = Some r →
  (map_fold (λ _ r n, copies x (items r) + n) 0 (<[k := r']> w)
   + copies x (items r))%nat
  = (map_fold (λ _ r n, copies x (items r) + n) 0 w + copies x (items r'))%nat.
Proof.
  intros Hk.
  rewrite <- (insert_delete_eq w k r').
  rewrite <- (insert_delete_id w k r Hk) at 2.
  rewrite !map_fold_insert_L; try apply lookup_delete_eq; [lia|..];
    intros; lia.
Qed.

Lemma step_census (x : string) (s s' : Player * gmap string Room) :
  x ∉ consumables → play_step s s' → census x s' = census x s.
Proof.
  unfold consumables, census. intros Hn.
  apply not_elem_of_cons in Hn as [Hcrow Hn].
  apply not_elem_of_cons in Hn as [Hcell Hn].
  apply not_elem_of_cons in Hn as [Hiron _].
  destruct 1 as [p w|p w r item Hr Hin Hroom|p w a ob Hl Ha Ho Ht Hc
                |p w r ob Hr Ho Hin Hn'|p w t Hl Hg Ht|p w r d t Hr Hf Hd];
    simpl; try done.
  - pose proof (rooms_insert x _ w r (set_items (list_remove item (items r)) r) Hr)
      as Hrooms.
    pose proof (copies_remove x item (items r) Hin) as Hrem.
    rewrite copies_app. simpl in Hrooms. lia.
  - pose proof (rooms_insert x _ w a (opened a) Ha) as Hrooms.
    pose proof (copies_remove x "Crowbar" (inventory p) Hc) as Hrem.
    simpl in Hrooms. rewrite copies_app in Hrooms.
    change ["Cell Key"; "Iron Key"] with (["Cell Key"] ++ ["Iron Key"]) in Hrooms.
    rewrite copies_app, !copies_one in Hrooms. rewrite copies_one in Hrem.
    repeat (destruct (decide _) in *; [by subst|]). lia.
  - pose proof (rooms_insert x _ w r (set_obstacle None r) Hr) as Hrooms.
    simpl in Hrooms.
    destruct (contains (required_item ob) ["Cell Key"; "Iron Key"]) eqn:E;
      simpl; [|lia].
    pose proof (copies_remove x _ (inventory p) Hin) as Hrem.
    rewrite copies_one in Hrem.
    apply contains_true in E.
    destruct (decide (required_item ob = x)) as [Heq|_]; [|lia].
    rewrite Heq in E. apply elem_of_cons in E as [->|E]; [done|].
    apply elem_of_one in E as ->. done.
  - pose proof (rooms_insert x _ w t (set_obstacle None t) Ht) as Hrooms.
    simpl in Hrooms. lia.
Qed.

(** X21.  Items are conserved.  Apart from the Crowbar and the two keys, the
    number of copies of an item in the game, counted over the bag and the
    item lists of all rooms, is the same after any number of commands: a
    take moves an item, and no command creates, duplicates or destroys
    one. *)
Theorem items_are_conserved (fuel : nat) (g : Game) (x : string) :
  x ∉ consumables →
  census x (play (main_loop fuel g).2) = census x (play g).
Proof.
  intros Hn.
  apply (steps_invariant (λ s, census x s = census x (play g))); [|done].
  intros s s' Hs <-. by apply step_census.
Qed.

Lemma items_are_conserved_witness :
  census "Torch"
    (play (main_loop 2 (sample "Kitchen" ["Rope"] ["take"; "1"; "look"])).2)
  = census "Torch" (play (sample "Kitchen" ["Rope"] ["take"; "1"; "look"])).
Proof.
  apply (items_are_conserved 2
           (sample "Kitchen" ["Rope"] ["take"; "1"; "look"]) "Torch").
  intros H. apply contains_true in H. discriminate H.
Defined.
